(** * cloudflared, package [websocket]: handshake translation and relay

    A shallow embedding of [websocket/websocket.go] together with the
    parts of the Go standard library ([crypto/sha1], [encoding/base64],
    [net/textproto], [net/http]) and of [github.com/gorilla/websocket]
    that the file calls, followed by the properties of the package.

    Go strings are byte sequences; they are modelled by [string] (a list
    of 8-bit [ascii]).  A [[]byte] used for arithmetic is a [list Z] of
    values below 256, a [uint32] is a [Z] reduced modulo [2^32]. *)

From Stdlib Require Import ZArith String Ascii List Lia Bool.
From stdpp Require Import base option gmap strings list fin_maps.
Import ListNotations.

Local Open Scope Z_scope.

(** ** Bytes and strings *)

Definition byte_of_ascii (c : ascii) : Z := Z.of_N (N_of_ascii c).

(** [[]byte(s)] *)
Definition bytes_of_string (s : string) : list Z :=
  map byte_of_ascii (list_ascii_of_string s).

(** ** crypto/sha1 *)
Module sha1.

Definition Size : nat := 20.
Definition BlockSize : nat := 64.

Definition u32 (x : Z) : Z := x mod 2 ^ 32.

(** [bits.RotateLeft32] *)
Definition rotl (x : Z) (k : Z) : Z :=
  u32 (Z.lor (Z.shiftl x k) (Z.shiftr x (32 - k))).

(** [^x] on a uint32 *)
Definition not32 (x : Z) : Z := Z.lxor x 0xFFFFFFFF.

Definition init0 : Z := 0x67452301.
Definition init1 : Z := 0xEFCDAB89.
Definition init2 : Z := 0x98BADCFE.
Definition init3 : Z := 0x10325476.
Definition init4 : Z := 0xC3D2E1F0.

Definition _K0 : Z := 0x5A827999.
Definition _K1 : Z := 0x6ED9EBA1.
Definition _K2 : Z := 0x8F1BBCDC.
Definition _K3 : Z := 0xCA62C1D6.

(** The five chaining words [h[0..4]]. *)
Record hstate := HState { h0 : Z; h1 : Z; h2 : Z; h3 : Z; h4 : Z }.

(** [digest]: chaining value, the bytes not yet forming a whole block
    ([x[:nx]]) and the number of bytes written so far. *)
Record digest := Digest { h : hstate; x : list Z; len : Z }.

(** Big-endian word of four bytes. *)
Definition be32 (b3 b2 b1 b0 : Z) : Z :=
  Z.lor (Z.lor (Z.shiftl b3 24) (Z.shiftl b2 16)) (Z.lor (Z.shiftl b1 8) b0).

(** The sixteen message words of a 64-byte block. *)
Fixpoint words (n : nat) (p : list Z) : list Z :=
  match n with
  | O => []
  | S n' =>
      match p with
      | b3 :: b2 :: b1 :: b0 :: p' => be32 b3 b2 b1 b0 :: words n' p'
      | _ => 0 :: words n' []
      end
  end.

Definition wget (w : list Z) (i : nat) : Z := nth i w 0.

(** The message schedule kept in a 16-word ring, as [blockGeneric] does:
    for [i >= 16], [tmp := w[(i-3)&0xf] ^ w[(i-8)&0xf] ^ w[(i-14)&0xf] ^ w[i&0xf]]
    and [w[i&0xf] = tmp<<1 | tmp>>31]. *)
Definition schedule (w : list Z) (i : nat) : list Z :=
  let tmp := Z.lxor (Z.lxor (wget w ((i - 3) mod 16)%nat) (wget w ((i - 8) mod 16)%nat))
                    (Z.lxor (wget w ((i - 14) mod 16)%nat) (wget w (i mod 16)%nat)) in
  <[ (i mod 16)%nat := rotl tmp 1 ]> w.

Definition round_f (i : nat) (b c d : Z) : Z :=
  if (i <? 20)%nat then Z.lor (Z.land b c) (Z.land (not32 b) d)
  else if (i <? 40)%nat then Z.lxor (Z.lxor b c) d
  else if (i <? 60)%nat then Z.lor (Z.land (Z.lor b c) d) (Z.land b c)
  else Z.lxor (Z.lxor b c) d.

Definition round_k (i : nat) : Z :=
  if (i <? 20)%nat then _K0
  else if (i <? 40)%nat then _K1
  else if (i <? 60)%nat then _K2
  else _K3.

(** Rounds [i .. i+n-1] of one block. *)
Fixpoint rounds (n : nat) (i : nat) (w : list Z) (s : hstate) : hstate :=
  match n with
  | O => s
  | S n' =>
      let w' := if (i <? 16)%nat then w else schedule w i in
      let '(HState a b c d e) := s in
      let t := u32 (rotl a 5 + round_f i b c d + e + wget w' (i mod 16)%nat + round_k i) in
      rounds n' (S i) w' (HState t a (rotl b 30) c d)
  end.

(** One 64-byte block. *)
Definition block1 (s : hstate) (p : list Z) : hstate :=
  let '(HState a b c d e) := rounds 80 0 (words 16 p) s in
  HState (u32 (h0 s + a)) (u32 (h1 s + b)) (u32 (h2 s + c))
         (u32 (h3 s + d)) (u32 (h4 s + e)).

(** [block(d, p)] for [n] whole blocks at the head of [p]; the rest of
    [p] is returned with the new chaining value. *)
Fixpoint block (n : nat) (s : hstate) (p : list Z) : hstate * list Z :=
  match n with
  | O => (s, p)
  | S n' => block n' (block1 s (firstn BlockSize p)) (skipn BlockSize p)
  end.

(** [sha1.New()] *)
Definition New : digest := Digest (HState init0 init1 init2 init3 init4) [] 0.

(** [digest.Write]: buffered bytes and [p] are consumed block by
    block, what is left stays buffered. *)
Definition Write (d : digest) (p : list Z) : digest :=
  let buf := x d ++ p in
  let '(s, rest) := block (length buf / BlockSize)%nat (h d) buf in
  Digest s rest (len d + Z.of_nat (length p)).

(** [binary.BigEndian.PutUint64] *)
Definition putUint64 (v : Z) : list Z :=
  map (fun k => Z.land (Z.shiftr v (8 * k)) 255) [7; 6; 5; 4; 3; 2; 1; 0].

(** [binary.BigEndian.PutUint32] *)
Definition putUint32 (v : Z) : list Z :=
  [Z.land (Z.shiftr v 24) 255; Z.land (Z.shiftr v 16) 255;
   Z.land (Z.shiftr v 8) 255; Z.land v 255].

(** [digest.checkSum]: a 1 bit, zero bits up to 56 bytes modulo 64,
    the length in bits on eight bytes. *)
Definition checkSum (d : digest) : list Z :=
  let l := len d in
  let t := if l mod 64 <? 56 then 56 - l mod 64 else 64 + 56 - l mod 64 in
  let padlen := (0x80 :: repeat 0 (Z.to_nat t - 1)) ++ putUint64 ((l * 8) mod 2 ^ 64) in
  let d' := Write d padlen in
  let s := h d' in
  putUint32 (h0 s) ++ putUint32 (h1 s) ++ putUint32 (h2 s) ++
  putUint32 (h3 s) ++ putUint32 (h4 s).

(** [digest.Sum(in)]: the checksum of a copy of [d] appended to [in]. *)
Definition Sum (d : digest) (b : list Z) : list Z := b ++ checkSum d.

End sha1.

(** [io.WriteString(w, s)] on a hash: [w.Write([]byte(s))]. *)
Definition io_WriteString (d : sha1.digest) (s : string) : sha1.digest :=
  sha1.Write d (bytes_of_string s).

(** ** encoding/base64 *)
Module base64.

Definition encodeStd : string :=
  "ABCDEFGHIJKLMNOPQRSTUVWXYZabcdefghijklmnopqrstuvwxyz0123456789+/".

Definition StdPadding : ascii := "="%char.

Definition enc (v : Z) : ascii :=
  nth (Z.to_nat (Z.land v 63)) (list_ascii_of_string encodeStd) StdPadding.

(** [StdEncoding.EncodeToString]: three bytes give four characters; a
    remainder of one or two bytes is padded with [=]. *)
Fixpoint EncodeToString (src : list Z) : string :=
  match src with
  | [] => EmptyString
  | [a] =>
      let v := Z.shiftl a 16 in
      String (enc (Z.shiftr v 18)) (String (enc (Z.shiftr v 12))
        (String StdPadding (String StdPadding EmptyString)))
  | [a; b] =>
      let v := Z.lor (Z.shiftl a 16) (Z.shiftl b 8) in
      String (enc (Z.shiftr v 18)) (String (enc (Z.shiftr v 12))
        (String (enc (Z.shiftr v 6)) (String StdPadding EmptyString)))
  | a :: b :: c :: rest =>
      let v := Z.lor (Z.lor (Z.shiftl a 16) (Z.shiftl b 8)) c in
      String (enc (Z.shiftr v 18)) (String (enc (Z.shiftr v 12))
        (String (enc (Z.shiftr v 6)) (String (enc v) (EncodeToString rest))))
  end.

End base64.

(** ** net/textproto *)
Module textproto.

Definition in_range (lo hi c : ascii) : bool :=
  (byte_of_ascii lo <=? byte_of_ascii c) && (byte_of_ascii c <=? byte_of_ascii hi).

Definition is_lower (c : ascii) : bool := in_range "a" "z" c.
Definition is_upper (c : ascii) : bool := in_range "A" "Z" c.
Definition is_digit (c : ascii) : bool := in_range "0" "9" c.

(** [toLower = 'a' - 'A'] *)
Definition toLower : Z := 32.

Definition add_byte (c : ascii) (k : Z) : ascii :=
  ascii_of_N (Z.to_N ((byte_of_ascii c + k) mod 256)).

(** [validHeaderFieldByte]: the token characters of RFC 7230,
    letters, digits and [!#$%&'*+-.^_`|~]. *)
Definition validHeaderFieldByte (c : ascii) : bool :=
  is_lower c || is_upper c || is_digit c ||
  existsb (Ascii.eqb c) (list_ascii_of_string "!#$%&'*+-.^_`|~").

Fixpoint all_valid (s : string) : bool :=
  match s with
  | EmptyString => true
  | String c s' => validHeaderFieldByte c && all_valid s'
  end.

(** The rewriting loop of [canonicalMIMEHeaderKey]: upper case for the
    first letter and after each dash, lower case elsewhere. *)
Fixpoint canonical_loop (upper : bool) (a : string) : string :=
  match a with
  | EmptyString => EmptyString
  | String c a' =>
      let c' :=
        if upper && is_lower c then add_byte c (- toLower)
        else if negb upper && is_upper c then add_byte c toLower
        else c in
      String c' (canonical_loop (Ascii.eqb c' "-") a')
  end.

(** [CanonicalMIMEHeaderKey]: a key holding a byte that is not a valid
    header field byte (a space included) is returned unchanged; any
    other key is rewritten by the loop above.  The quick check for an
    already canonical key and the table of common headers only save
    allocations. *)
Definition CanonicalMIMEHeaderKey (s : string) : string :=
  if all_valid s then canonical_loop true s else s.

End textproto.

(** ** net/http: [Header] *)
Module http.

(** [type Header map[string][]string], the contents of one map object. *)
Abbreviation Header := (gmap string (list string)).

(** [h[key] = val] *)
Definition store (h : Header) (key : string) (val : list string) : Header :=
  <[key := val]> h.

(** [h.Add(key, value)]: [h[key] = append(h[key], value)] at the
    canonical key. *)
Definition Add (h : Header) (key value : string) : Header :=
  let key := textproto.CanonicalMIMEHeaderKey key in
  <[key := default [] (h !! key) ++ [value]]> h.

(** [h.Set(key, value)]: [h[key] = []string{value}] at the canonical key. *)
Definition Set_ (h : Header) (key value : string) : Header :=
  <[textproto.CanonicalMIMEHeaderKey key := [value]]> h.

(** [h.Get(key)]: the first value at the canonical key, or the empty
    string. *)
Definition Get (h : Header) (key : string) : string :=
  match h !! textproto.CanonicalMIMEHeaderKey key with
  | Some (v :: _) => v
  | _ => EmptyString
  end.

(** [h.Del(key)]: [delete(h, key)] at the canonical key. *)
Definition Del (h : Header) (key : string) : Header :=
  delete (textproto.CanonicalMIMEHeaderKey key) h.

End http.

(** ** github.com/gorilla/websocket: [util.go] *)
Module gorilla.

(** [isTokenOctet]: the token octets of RFC 2616. *)
Definition isTokenOctet (c : ascii) : bool :=
textproto.is_lower c || textproto.is_upper c || textproto.is_digit c ||
existsb (Ascii.eqb c) (list_ascii_of_string "!#$%&'*+-.^_`|~").

Definition isSpace (c : ascii) : bool :=
Ascii.eqb c " " || Ascii.eqb c "009".

(** [skipSpace] returns [s] with all leading linear whitespace removed. *)
Fixpoint skipSpace (s : string) : string :=
match s with
| String b s' => if isSpace b then skipSpace s' else s
| EmptyString => EmptyString
end.

(** [nextToken] returns the leading token of [s] and the string
    following the token. *)
Fixpoint nextToken (s : string) : string * string :=
match s with
| String b s' =>
    if isTokenOctet b
    then let '(t, rest) := nextToken s' in (String b t, rest)
    else (EmptyString, s)
| EmptyString => (EmptyString, EmptyString)
end.

Definition fold_octet (c : ascii) : ascii :=
if textproto.is_upper c then textproto.add_byte c textproto.toLower else c.

(** [equalASCIIFold] returns true if [s] is equal to [t] with ASCII case
    folding.  The Go function decodes runes; it is only applied to
    tokens and to ASCII literals, where a rune is a byte. *)
Fixpoint equalASCIIFold (s t : string) : bool :=
match s, t with
| String sr s', String tr t' =>
    if Ascii.eqb sr tr then equalASCIIFold s' t'
    else if Ascii.eqb (fold_octet sr) (fold_octet tr) then equalASCIIFold s' t'
    else false
| EmptyString, EmptyString => true
| _, _ => false
end.

(** The inner [for] loop of [tokenListContainsValue] on one header
    value: [Some true] is [return true], [Some false] is
    [continue headers].  Every turn consumes a token, so [fuel] above the
    length of [s] is never exhausted ([None]). *)
Fixpoint scanTokens (fuel : nat) (s value : string) : option bool :=
match fuel with
| O => None
| S fuel' =>
    let '(t, s) := nextToken (skipSpace s) in
    if String.eqb t "" then Some false
    else
      let s := skipSpace s in
      match s with
      | String c s' =>
          if negb (Ascii.eqb c ",") then Some false
          else if equalASCIIFold t value then Some true
          else scanTokens fuel' s' value
      | EmptyString =>
          if equalASCIIFold t value then Some true else Some false
      end
end.

(** [tokenListContainsValue] returns true if the 1#token header with the
    given name contains a token equal to [value] with ASCII case folding. *)
Definition tokenListContainsValue (header : http.Header) (name value : string) : bool :=
existsb (fun s => default false (scanTokens (S (String.length s)) s value))
        (default [] (header !! name)).

(** [IsWebSocketUpgrade] returns true if the client requested upgrade to
    the WebSocket protocol. *)
Definition IsWebSocketUpgrade (header : http.Header) : bool :=
tokenListContainsValue header "Connection" "upgrade" &&
tokenListContainsValue header "Upgrade" "websocket".

End gorilla.

(** ** The store: URL objects, header maps, the outside world *)

(** Addresses of heap objects. *)
Definition loc := positive.

Module url.

(** [url.URL]; [User] and the raw forms, which this package never reads,
    are left out. *)
Record URL := mkURL {
  Scheme : string;
  Opaque : string;
  Host : string;
  Path : string;
  RawQuery : string;
  Fragment : string
}.

(** [u.Scheme = s] *)
Definition set_Scheme (u : URL) (s : string) : URL :=
mkURL s (Opaque u) (Host u) (Path u) (RawQuery u) (Fragment u).

End url.

Module Request.

(** [http.Request]: [URL] is a pointer to a [url.URL], [Header] a map
    (a reference; [None] is the nil map). *)
Record t := mk {
  Method : string;
  URL : loc;
  Header : option loc;
  Host : string
}.

End Request.

Module Response.

(** [http.Response] *)
Record t := mk {
  StatusCode : Z;
  Header : option loc
}.

End Response.

(** The state a call runs in: the [url.URL] objects and the header maps
    on the heap, and the state [net] of everything outside the process. *)
Record world (Net : Type) := World {
  urls : gmap loc url.URL;
  headers : gmap loc http.Header;
  net : Net
}.
Arguments World {Net} _ _ _.
Arguments urls {Net} _.
Arguments headers {Net} _.
Arguments net {Net} _.

Definition set_urls {Net} (f : gmap loc url.URL → gmap loc url.URL) (σ : world Net) : world Net :=
World (f (urls σ)) (headers σ) (net σ).

Definition set_headers {Net} (f : gmap loc http.Header → gmap loc http.Header) (σ : world Net) : world Net :=
World (urls σ) (f (headers σ)) (net σ).

(** A call returns a value or panics. *)
Inductive result (A : Type) := Ok (a : A) | Panic.
Arguments Ok {A} _.
Arguments Panic {A}.

Definition M (Net A : Type) : Type := world Net → result A * world Net.

#[global] Instance M_ret {Net} : MRet (M Net) := λ A a σ, (Ok a, σ).

#[global] Instance M_bind {Net} : MBind (M Net) := λ A B f m σ,
  match m σ with
  | (Ok a, σ') => f a σ'
  | (Panic, σ') => (Panic, σ')
  end.

Definition panic {Net A} : M Net A := λ σ, (Panic, σ).

(** The map a reference points to; the nil map has none, and a reference
    to a location that holds no map is treated like it. *)
Definition deref {Net} (σ : world Net) (r : option loc) : option http.Header :=
match r with
| Some l => headers σ !! l
| None => None
end.

(** [make(http.Header)], [http.Header{}]: a new, empty map object. *)
Definition make_Header {Net} : M Net (option loc) := λ σ,
  let l := fresh (dom (headers σ)) in
  (Ok (Some l), set_headers <[l := ∅]> σ).

(** Reading a map: the nil map reads as the empty map. *)
Definition read_Header {Net} (r : option loc) : M Net http.Header := λ σ,
  (Ok (default ∅ (deref σ r)), σ).

(** Writing a map in place: an assignment to an entry of the nil map
    panics. *)
Definition write_Header {Net} (r : option loc) (f : http.Header → http.Header) : M Net unit := λ σ,
  match r, deref σ r with
  | Some l, Some h => (Ok tt, set_headers <[l := f h]> σ)
  | _, _ => (Panic, σ)
  end.

(** [h[key] = val] *)
Definition Header_store {Net} (r : option loc) (key : string) (val : list string) : M Net unit :=
write_Header r (λ h, http.store h key val).

(** [h.Add(key, value)] *)
Definition Header_Add {Net} (r : option loc) (key value : string) : M Net unit :=
write_Header r (λ h, http.Add h key value).

(** [h.Set(key, value)] *)
Definition Header_Set {Net} (r : option loc) (key value : string) : M Net unit :=
write_Header r (λ h, http.Set_ h key value).

(** [h.Get(key)] *)
Definition Header_Get {Net} (r : option loc) (key : string) : M Net string :=
h ← read_Header r; mret (http.Get h key).

(** [h.Del(key)]: [delete] on the nil map does nothing. *)
Definition Header_Del {Net} (r : option loc) (key : string) : M Net unit := λ σ,
  match deref σ r with
  | Some _ => write_Header r (λ h, http.Del h key) σ
  | None => (Ok tt, σ)
  end.

(** [for key, val := range h { body }] over the entries of a map that the
    body does not write to. *)
Definition range_Header {Net} (h : http.Header) (body : string → list string → M Net unit) : M Net unit :=
map_fold (λ key val rest, rest ;; body key val) (mret tt) h.

(** [for _, a := range l { body }] over a slice. *)
Fixpoint range_slice {Net A} (l : list A) (body : A → M Net unit) : M Net unit :=
match l with
| [] => mret tt
| a :: l' => body a ;; range_slice l' body
end.

(** [*p] for a [*url.URL]: a nil (unallocated) pointer panics. *)
Definition load_URL {Net} (p : loc) : M Net url.URL := λ σ,
  match urls σ !! p with
  | Some u => (Ok u, σ)
  | None => (Panic, σ)
  end.

(** [p.Scheme = s] *)
Definition store_Scheme {Net} (p : loc) (s : string) : M Net unit := λ σ,
  match urls σ !! p with
  | Some u => (Ok tt, set_urls <[p := url.set_Scheme u s]> σ)
  | None => (Panic, σ)
  end.

(** The collaborators the package is linked against: the connection and
    error types, gorilla's [Dialer] with its [Dial] method, which acts on
    the outside world and hands back a response object, the dialer built
    by [&websocket.Dialer{Proxy: http.ProxyFromEnvironment}], and
    [URL.String]. *)
Class External := {
  Conn : Type;
  Err : Type;
  Dialer : Type;
  Net : Type;
  defaultDialer : Dialer;
  URL_String : url.URL → string;
  Dial : Dialer → string → option loc →
         world Net → (option Conn * option Response.t * option Err) * world Net
}.

(** [dialler.Dial(urlStr, requestHeader)]: the external call. *)
Definition Dialer_Dial `{External} (dialler : Dialer) (urlStr : string) (requestHeader : option loc) :
  M Net (option Conn * option Response.t * option Err) := λ σ,
  let '(r, σ') := Dial dialler urlStr requestHeader σ in (Ok r, σ').

(** ** websocket.go *)

Definition stripWebsocketHeaders : list string :=
  ["Upgrade"; "Connection"; "Sec-Websocket-Key"; "Sec-Websocket-Version";
   "Sec-Websocket-Extensions"]%string.

(** [IsWebSocketUpgrade] checks to see if the request is a WebSocket
    connection. *)
Definition IsWebSocketUpgrade {Net} (req : Request.t) : M Net bool :=
h ← read_Header (Request.Header req);
mret (gorilla.IsWebSocketUpgrade h).

(** [sha1Base64] sha1 and then base64 encodes [str]. *)
Definition sha1Base64 (str : string) : string :=
let hasher := sha1.New in
let hasher := io_WriteString hasher str in
let hash := sha1.Sum hasher [] in
base64.EncodeToString hash.

(** [generateAcceptKey] returns the string needed for the
    Sec-WebSocket-Accept header. *)
Definition generateAcceptKey {Net} (req : Request.t) : M Net string :=
key ← Header_Get (Request.Header req) "Sec-WebSocket-Key";
mret (sha1Base64 (key +:+ "258EAFA5-E914-47DA-95CA-C5AB0DC85B11")).

(** [ChangeRequestScheme] is needed as the gorilla websocket library
    requires the ws scheme. *)
Definition ChangeRequestScheme (reqURL : url.URL) : string :=
if String.eqb (url.Scheme reqURL) "https" then "wss"
else if String.eqb (url.Scheme reqURL) "http" then "ws"
else if String.eqb (url.Scheme reqURL) "" then "ws"
else url.Scheme reqURL.

(** [websocketHeaders]: the request headers without those the gorilla
    websocket library sets on its own. *)
Definition websocketHeaders {Net} (req : Request.t) : M Net (option loc) :=
wsHeaders ← make_Header;
h ← read_Header (Request.Header req);
range_Header h (λ key val, Header_store wsHeaders key val);;
range_slice stripWebsocketHeaders (λ header, Header_Del wsHeaders header);;
Header_Set wsHeaders "Host" (Request.Host req);;
mret wsHeaders.

(** [NewResponseHeader] returns headers needed to return to origin for
    completing handshake. *)
Definition NewResponseHeader {Net} (req : Request.t) : M Net (option loc) :=
header ← make_Header;
Header_Add header "Connection" "Upgrade";;
key ← generateAcceptKey req;
Header_Add header "Sec-Websocket-Accept" key;;
Header_Add header "Upgrade" "websocket";;
mret header.

(** [ClientConnect] creates a WebSocket client connection for provided
    request. *)
Definition ClientConnect `{External} (req : Request.t) (dialler : option Dialer) :
  M Net (option Conn * option Response.t * option Err) :=
reqURL ← load_URL (Request.URL req);
store_Scheme (Request.URL req) (ChangeRequestScheme reqURL);;
wsHeaders ← websocketHeaders req;
let dialler := match dialler with Some d => d | None => defaultDialer end in
reqURL ← load_URL (Request.URL req);
'(conn, response, err) ← Dialer_Dial dialler (URL_String reqURL) wsHeaders;
match err with
| Some e => mret (None, response, Some e)
| None =>
    key ← generateAcceptKey req;
    match response with
    | Some r => Header_Set (Response.Header r) "Sec-WebSocket-Accept" key
    | None => panic
    end;;
    mret (conn, response, None)
end.


(** ** Stream: the caller and its two copying goroutines *)

(** How the reads of a stream end once its pending data is consumed: at
    end of stream, with an error, or never (the peer stays silent and
    open, [Read] blocks for good). *)
Inductive ending (E : Type) := EOF | ReadError (e : E) | Never.
Arguments EOF {E}.
Arguments ReadError {E} _.
Arguments Never {E}.

(** An [io.ReadWriter]: the chunks its next [Read]s return and how they
    end, the bytes written to it, and, when its [Write] is going to fail,
    after how many further writes and with which error. *)
Record ReadWriter (E : Type) := mkRW {
  incoming : list (list Z);
  closing : ending E;
  written : list Z;
  wfail : option (nat * E)
}.
Arguments mkRW {E} _ _ _ _.
Arguments incoming {E} _.
Arguments closing {E} _.
Arguments written {E} _.
Arguments wfail {E} _.

(** What one turn of the loop of [io.Copy] does. *)
Inductive copied (E : Type) := Continue | Return_ (err : option E) | Blocked.
Arguments Continue {E}.
Arguments Return_ {E} _.
Arguments Blocked {E}.

(** [dst.Write(chunk)] *)
Definition Write_ {E} (dst : ReadWriter E) (chunk : list Z) : ReadWriter E * option E :=
match wfail dst with
| Some (O, e) => (dst, Some e)
| Some (S n, e) =>
    (mkRW (incoming dst) (closing dst) (written dst ++ chunk) (Some (n, e)), None)
| None => (mkRW (incoming dst) (closing dst) (written dst ++ chunk) None, None)
end.

(** One turn of [io.Copy(dst, src)]: a [Read] from [src], then the
    [Write] of what was read to [dst]; the copy returns [nil] at end of
    stream and the error of a failed read or write. *)
Definition copy_turn {E} (dst src : ReadWriter E) : ReadWriter E * ReadWriter E * copied E :=
match incoming src with
| chunk :: rest =>
    let src' := mkRW rest (closing src) (written src) (wfail src) in
    match Write_ dst chunk with
    | (dst', None) => (dst', src', Continue)
    | (dst', Some ew) => (dst', src', Return_ (Some ew))
    end
| [] =>
    match closing src with
    | EOF => (dst, src, Return_ None)
    | ReadError er => (dst, src, Return_ (Some er))
    | Never => (dst, src, Blocked)
    end
end.

(** Where a copying goroutine stands: not started, inside [io.Copy],
    at [if err != nil], at [proxyDone <- struct{}{}], finished. *)
Inductive gpc (E : Type) := GIdle | GCopy | GCheck (err : option E) | GSend | GDone.
Arguments GIdle {E}.
Arguments GCopy {E}.
Arguments GCheck {E} _.
Arguments GSend {E}.
Arguments GDone {E}.

(** Where the caller stands: at the first [go], at the second [go], at
    [<-proxyDone], returned. *)
Inductive mpc := MGo1 | MGo2 | MRecv | MRet.

(** The three threads of a call of [Stream]: the caller, the goroutine
    running [io.Copy(conn, backendConn)] and the one running
    [io.Copy(backendConn, conn)]. *)
Inductive tid := Caller | ToConn | ToBackend.

(** The state of a call: the three program points, the number of signals
    buffered in [proxyDone], the two streams and what was logged. *)
Record config (E : Type) := mkConfig {
  caller : mpc;
  toConn : gpc E;
  toBackend : gpc E;
  proxyDone : nat;
  conn : ReadWriter E;
  backendConn : ReadWriter E;
  log : list (string * E)
}.
Arguments mkConfig {E} _ _ _ _ _ _ _.
Arguments caller {E} _.
Arguments toConn {E} _.
Arguments toBackend {E} _.
Arguments proxyDone {E} _.
Arguments conn {E} _.
Arguments backendConn {E} _.
Arguments log {E} _.

(** [make(chan struct{}, 2)] *)
Definition proxyDone_cap : nat := 2.

(** A step of the caller. *)
Definition caller_step {E} (c : config E) : option (config E) :=
match caller c with
| MGo1 =>
    Some (mkConfig MGo2 GCopy (toBackend c) (proxyDone c) (conn c) (backendConn c) (log c))
| MGo2 =>
    Some (mkConfig MRecv (toConn c) GCopy (proxyDone c) (conn c) (backendConn c) (log c))
| MRecv =>
    match proxyDone c with
    | S n => Some (mkConfig MRet (toConn c) (toBackend c) n (conn c) (backendConn c) (log c))
    | O => None
    end
| MRet => None
end.

(** A step of the goroutine copying from [backendConn] to [conn]. *)
Definition toConn_step {E} (c : config E) : option (config E) :=
match toConn c with
| GIdle => None
| GCopy =>
    match copy_turn (conn c) (backendConn c) with
    | (dst, src, Continue) =>
        Some (mkConfig (caller c) GCopy (toBackend c) (proxyDone c) dst src (log c))
    | (dst, src, Return_ err) =>
        Some (mkConfig (caller c) (GCheck err) (toBackend c) (proxyDone c) dst src (log c))
    | (_, _, Blocked) => None
    end
| GCheck (Some err) =>
    Some (mkConfig (caller c) GSend (toBackend c) (proxyDone c) (conn c) (backendConn c)
            (log c ++ [("conn to backendConn copy: %v"%string, err)]))
| GCheck None =>
    Some (mkConfig (caller c) GSend (toBackend c) (proxyDone c) (conn c) (backendConn c) (log c))
| GSend =>
    if (proxyDone c <? proxyDone_cap)%nat
    then Some (mkConfig (caller c) GDone (toBackend c) (S (proxyDone c)) (conn c) (backendConn c) (log c))
    else None
| GDone => None
end.

(** A step of the goroutine copying from [conn] to [backendConn]. *)
Definition toBackend_step {E} (c : config E) : option (config E) :=
match toBackend c with
| GIdle => None
| GCopy =>
    match copy_turn (backendConn c) (conn c) with
    | (dst, src, Continue) =>
        Some (mkConfig (caller c) (toConn c) GCopy (proxyDone c) src dst (log c))
    | (dst, src, Return_ err) =>
        Some (mkConfig (caller c) (toConn c) (GCheck err) (proxyDone c) src dst (log c))
    | (_, _, Blocked) => None
    end
| GCheck (Some err) =>
    Some (mkConfig (caller c) (toConn c) GSend (proxyDone c) (conn c) (backendConn c)
            (log c ++ [("backendConn to conn copy: %v"%string, err)]))
| GCheck None =>
    Some (mkConfig (caller c) (toConn c) GSend (proxyDone c) (conn c) (backendConn c) (log c))
| GSend =>
    if (proxyDone c <? proxyDone_cap)%nat
    then Some (mkConfig (caller c) (toConn c) GDone (S (proxyDone c)) (conn c) (backendConn c) (log c))
    else None
| GDone => None
end.

(** The step thread [t] takes in [c], if it is not blocked. *)
Definition Stream_step {E} (t : tid) (c : config E) : option (config E) :=
match t with
| Caller => caller_step c
| ToConn => toConn_step c
| ToBackend => toBackend_step c
end.

(** [Stream(conn, backendConn, log)] on entry. *)
Definition Stream {E} (conn backendConn : ReadWriter E) (log : list (string * E)) : config E :=
mkConfig MGo1 GIdle GIdle 0 conn backendConn log.

(** Some thread takes a step. *)
Inductive step {E} (c c' : config E) : Prop :=
| step_of (t : tid) : Stream_step t c = Some c' → step c c'.

(** The steps of a schedule, one thread after the other; a thread that is
    blocked when its turn comes is skipped. *)
Fixpoint run {E} (sched : list tid) (c : config E) : config E :=
match sched with
| [] => c
| t :: sched' => run sched' (default c (Stream_step t c))
end.




(** The configurations a call can reach. *)
Definition reachable {E} (c0 c : config E) : Prop := rtc step c0 c.

(** No thread can take a step. *)
Definition stuck {E} (c : config E) : Prop := ∀ t, Stream_step t c = None.


Definition done_count {E} (p : gpc E) : nat :=
match p with GDone => 1 | _ => 0 end.

Definition received (p : mpc) : nat :=
match p with MRet => 1 | _ => 0 end.

Definition started {E} (p : gpc E) : Prop :=
match p with GIdle => False | _ => True end.

(** What holds all along a call of [Stream] on the streams [a] and [b]:
    every signal sent is buffered or received, the goroutines are started
    in order, the streams end the way they did on entry, and a stream
    whose writes do not fail has received, in order, the bytes read from
    the other one. *)
Record Stream_inv {E} (a b : ReadWriter E) (c : config E) : Prop := mkInv {
  inv_signals :
    (done_count (toConn c) + done_count (toBackend c) = proxyDone c + received (caller c))%nat;
  inv_go1 : caller c = MGo1 → toConn c = GIdle ∧ toBackend c = GIdle;
  inv_go2 : caller c = MGo2 → started (toConn c) ∧ toBackend c = GIdle;
  inv_recv : caller c = MRecv ∨ caller c = MRet → started (toConn c) ∧ started (toBackend c);
  inv_closing : closing (conn c) = closing a ∧ closing (backendConn c) = closing b;
  inv_to_conn :
    wfail a = None →
    wfail (conn c) = None
    ∧ written (conn c) ++ concat (incoming (backendConn c)) = written a ++ concat (incoming b);
  inv_to_backend :
    wfail b = None →
    wfail (backendConn c) = None
    ∧ written (backendConn c) ++ concat (incoming (conn c)) = written b ++ concat (incoming a)
}.

(** ** Notions used to state the properties *)

(** The contents of the outbound header map built from the inbound
    headers [h] and the host: [h] without the five handshake headers,
    with [Host] overwritten. *)
Definition sanitized (h : http.Header) (host : string) : http.Header :=
<["Host"%string := [host]]>
  (delete "Sec-Websocket-Extensions"%string
    (delete "Sec-Websocket-Version"%string
      (delete "Sec-Websocket-Key"%string
        (delete "Connection"%string
          (delete "Upgrade"%string h))))).

(** Every key of [h] is in canonical format. *)
Definition canonical_keys (h : http.Header) : Prop :=
map_Forall (λ k _, textproto.CanonicalMIMEHeaderKey k = k) h.

(** [k] names one of the handshake headers, whatever its casing. *)
Definition excluded_fold (k : string) : bool :=
existsb (gorilla.equalASCIIFold k) stripWebsocketHeaders.

(** SHA-1 as FIPS 180-4 states it: the message is followed by the byte
    [0x80], by the least number of zero bytes that brings the length to
    56 modulo 64, and by its length in bits on eight bytes; the padded
    message is hashed block by block from the initial value, and the
    digest is the five chaining words, big-endian. *)
Definition sha1_padding (n : Z) : list Z :=
0x80 :: repeat 0 (Z.to_nat ((55 - n) mod 64)) ++ sha1.putUint64 ((n * 8) mod 2 ^ 64).

Definition SHA1 (msg : list Z) : list Z :=
let padded := msg ++ sha1_padding (Z.of_nat (length msg)) in
let s := fst (sha1.block (length padded / sha1.BlockSize)%nat (sha1.h sha1.New) padded) in
sha1.putUint32 (sha1.h0 s) ++ sha1.putUint32 (sha1.h1 s) ++ sha1.putUint32 (sha1.h2 s) ++
sha1.putUint32 (sha1.h3 s) ++ sha1.putUint32 (sha1.h4 s).

(** The accept token of a nonce (RFC 6455, section 1.3). *)
Definition accept_token (nonce : string) : string :=
base64.EncodeToString
  (SHA1 (bytes_of_string (nonce +:+ "258EAFA5-E914-47DA-95CA-C5AB0DC85B11"))).

(** The nonce of a request: the first value of its [Sec-Websocket-Key]
    header, empty when there is none. *)
Definition nonce_of {Net} (σ : world Net) (req : Request.t) : string :=
http.Get (default ∅ (deref σ (Request.Header req))) "Sec-WebSocket-Key".

(** The three entries of the response header. *)
Definition response_header (token : string) : http.Header :=
<["Upgrade"%string := ["websocket"%string]]>
  (<["Sec-Websocket-Accept"%string := [token]]>
    (<["Connection"%string := ["Upgrade"%string]]> ∅)).






(** ** A small instance of the collaborators

    The outside world counts the dial attempts.  The dialer [true]
    reaches a backend that answers with an accept header of its own, the
    dialer [false] is refused and returns a partial response. *)

Inductive toy_err := refused.

Definition toy_String (u : url.URL) : string :=
url.Scheme u +:+ "://" +:+ url.Host u +:+ url.Path u.

Definition toy_Dial (d : bool) (urlStr : string) (requestHeader : option loc) (σ : world nat) :
  (option string * option Response.t * option toy_err) * world nat :=
if d then
  let l := fresh (dom (headers σ)) in
  ((Some urlStr, Some (Response.mk 101 (Some l)), None),
   World (urls σ)
         (<[l := <["Sec-Websocket-Accept"%string := ["from-the-backend"%string]]> ∅]> (headers σ))
         (S (net σ)))
else
  ((None, Some (Response.mk 502 None), Some refused),
   World (urls σ) (headers σ) (S (net σ))).

Definition toy : External :=
{| Conn := string; Err := toy_err; Dialer := bool; Net := nat;
   defaultDialer := true; URL_String := toy_String; Dial := toy_Dial |}.

(** An upgrade request for [https://example.com/chat] carrying the nonce
    of RFC 6455, and the store it lives in. *)
Definition sample_headers : http.Header :=
<["Connection"%string := ["keep-alive, Upgrade"%string]]>
  (<["Upgrade"%string := ["websocket"%string]]>
    (<["Sec-Websocket-Key"%string := ["dGhlIHNhbXBsZSBub25jZQ=="%string]]>
      (<["Sec-Websocket-Version"%string := ["13"%string]]>
        (<["User-Agent"%string := ["curl"%string]]> ∅)))).

Definition sample_req : Request.t :=
Request.mk "GET" 1%positive (Some 1%positive) "example.com".

Definition sample_world : world nat :=
World (<[1%positive := url.mkURL "https" "" "example.com" "/chat" "" ""]> ∅)
      (<[1%positive := sample_headers]> ∅)
      O.

(** The URL of a request once its scheme is translated. *)
Definition translated (u : url.URL) : url.URL :=
url.set_Scheme u (ChangeRequestScheme u).

(** The world [ClientConnect] calls the dialer in, [u] being the URL of
    the request on entry: the scheme is rewritten in place and the
    outbound headers sit in a new map. *)
Definition before_dial {Net} (req : Request.t) (σ : world Net) (u : url.URL) : world Net :=
set_headers
  <[fresh (dom (headers σ)) :=
      sanitized (default ∅ (deref σ (Request.Header req))) (Request.Host req)]>
  (set_urls <[Request.URL req := translated u]> σ).

(** The dialer [ClientConnect] uses. *)
Definition chosen `{External} (dialler : option Dialer) : Dialer :=
match dialler with Some d => d | None => defaultDialer end.

(** The call of [Dial] that [ClientConnect] makes. *)
Definition the_dial `{External} (req : Request.t) (dialler : option Dialer) (σ : world Net)
    (u : url.URL) : (option Conn * option Response.t * option Err) * world Net :=
Dial (chosen dialler) (URL_String (translated u)) (Some (fresh (dom (headers σ))))
     (before_dial req σ u).

(** What [ClientConnect] does with the result of the dial. *)
Definition after_dial `{External} (req : Request.t)
    (r : option Conn * option Response.t * option Err) :
  M Net (option Conn * option Response.t * option Err) :=
let '(conn, response, err) := r in
match err with
| Some e => mret (None, response, Some e)
| None =>
    key ← generateAcceptKey req;
    match response with
    | Some r => Header_Set (Response.Header r) "Sec-WebSocket-Accept" key
    | None => panic
    end;;
    mret (conn, response, None)
end.




(** A request whose header map was filled by hand with lower-case keys. *)
Definition lowercase_headers : http.Header :=
<["upgrade"%string := ["websocket"%string]]>
  (<["connection"%string := ["Upgrade"%string]]> ∅).

Definition lowercase_world : world nat :=
World (<[1%positive := url.mkURL "http" "" "example.com" "/chat" "" ""]> ∅)
      (<[1%positive := lowercase_headers]> ∅)
      O.

(** ** Further notions used to state properties *)

(** The contents of the map [websocketHeaders] returns. *)
Definition outbound {Net} (req : Request.t) (σ : world Net) : http.Header :=
match websocketHeaders req σ with
| (Ok r, σ') => default ∅ (deref σ' r)
| (Panic, _) => ∅
end.

(** The characters of the standard base64 alphabet. *)
Definition base64_alphabet (c : ascii) : Prop :=
In c (list_ascii_of_string base64.encodeStd).

(** A request that carries two nonces. *)
Definition two_nonces_headers : http.Header :=
<["Sec-Websocket-Key"%string := ["dGhlIHNhbXBsZSBub25jZQ=="%string; "x3JJHMbDL1EzLkh9GBhXDw=="%string]]> ∅.

Definition two_nonces_world : world nat :=
World (<[1%positive := url.mkURL "http" "" "example.com" "/chat" "" ""]> ∅)
      (<[1%positive := two_nonces_headers]> ∅)
      O.

(** The copy has returned. *)
Definition past_copy {E} (p : gpc E) : Prop :=
match p with GIdle | GCopy => False | _ => True end.

(** The goroutine is past its logging statement. *)
Definition logged {E} (p : gpc E) : nat :=
match p with GSend | GDone => 1 | _ => 0 end.

(** A stream whose reads never fail. *)
Definition reads_cleanly {E} (s : ReadWriter E) : Prop := ∀ e, closing s ≠ ReadError e.

(** More of what holds all along a call of [Stream] on [a] and [b] with
    the log [lg]: the log only grows, by one entry at most for each
    goroutine past its logging statement; a copy between a source that
    reads cleanly and a destination whose writes do not fail returns no
    error; such a copy returns only once its source is exhausted and at
    its end. *)
Record Stream_inv2 {E} (a b : ReadWriter E) (lg : list (string * E)) (c : config E) : Prop :=
mkInv2 {
  inv2_prefix : ∃ extra, log c = lg ++ extra;
  inv2_length :
    (length (log c) ≤ length lg + logged (toConn c) + logged (toBackend c))%nat;
  inv2_clean_conn :
    wfail a = None → reads_cleanly b → ∀ e, toConn c ≠ GCheck (Some e);
  inv2_clean_backend :
    wfail b = None → reads_cleanly a → ∀ e, toBackend c ≠ GCheck (Some e);
  inv2_clean_log :
    wfail a = None → wfail b = None → reads_cleanly a → reads_cleanly b → log c = lg;
  inv2_done_conn :
    wfail a = None → past_copy (toConn c) →
    incoming (backendConn c) = [] ∧ closing b ≠ Never;
  inv2_done_backend :
    wfail b = None → past_copy (toBackend c) →
    incoming (conn c) = [] ∧ closing a ≠ Never
}.

(** * Properties *)

(** ** Known values *)

Example sha1Base64_rfc :
  sha1Base64 "dGhlIHNhbXBsZSBub25jZQ==258EAFA5-E914-47DA-95CA-C5AB0DC85B11"
  = "s3pPLMBiTxaQ9kYGzzhZRbK+xOo="%string.
Proof. vm_compute. reflexivity. Qed.

Example sha1Base64_scenario :
  sha1Base64 "x3JJHMbDL1EzLkh9GBhXDw==258EAFA5-E914-47DA-95CA-C5AB0DC85B11"
  = "HSmrc0sMlYUkAGmm5OPpG2HaGWk="%string.
Proof. vm_compute. reflexivity. Qed.

Example sha1Base64_empty : sha1Base64 "" = "2jmj7l5rSw0yVb/vlWAYkK/YBwk="%string.
Proof. vm_compute. reflexivity. Qed.

Example sha1Base64_abc : sha1Base64 "abc" = "qZk+NkcGgWq6PiVxeFDCbJzQ2J0="%string.
Proof. vm_compute. reflexivity. Qed.

Example sha1Base64_two_blocks :
  sha1Base64 "abcdbcdecdefdefgefghfghighijhijkijkljklmklmnlmnomnopnopq"
  = "hJg+RBw70m66rkqh+VEp5eVGcPE="%string.
Proof. vm_compute. reflexivity. Qed.

Example sha1Base64_55_bytes :
  sha1Base64 "aaaaaaaaaaaaaaaaaaaaaaaaaaaaaaaaaaaaaaaaaaaaaaaaaaaaaaa"
  = "wci73CJ5bijA4VFj0giZtlYh1lo="%string.
Proof. vm_compute. reflexivity. Qed.

Example sha1Base64_56_bytes :
  sha1Base64 "aaaaaaaaaaaaaaaaaaaaaaaaaaaaaaaaaaaaaaaaaaaaaaaaaaaaaaaa"
  = "wtszD2CDhUyZ1LW/tujynyAb5pk="%string.
Proof. vm_compute. reflexivity. Qed.

Example canonical_accept_key :
  textproto.CanonicalMIMEHeaderKey "Sec-WebSocket-Accept" = "Sec-Websocket-Accept"%string.
Proof. reflexivity. Qed.

Example canonical_lower :
  textproto.CanonicalMIMEHeaderKey "sec-websocket-key" = "Sec-Websocket-Key"%string.
Proof. reflexivity. Qed.

Example canonical_space :
  textproto.CanonicalMIMEHeaderKey "sec websocket" = "sec websocket"%string.
Proof. reflexivity. Qed.

Example token_list_keep_alive :
  gorilla.IsWebSocketUpgrade
    (<["Connection"%string := ["keep-alive, Upgrade"%string]]>
       (<["Upgrade"%string := ["websocket"%string]]> ∅)) = true.
Proof. vm_compute. reflexivity. Qed.

Example token_list_plain : gorilla.IsWebSocketUpgrade ∅ = false.
Proof. vm_compute. reflexivity. Qed.

Example token_list_malformed :
  gorilla.tokenListContainsValue
    (<["Connection"%string := ["keep alive, Upgrade"%string]]> ∅) "Connection" "upgrade"
  = false.
Proof. vm_compute. reflexivity. Qed.

(** ** The hash: streaming and one-shot agree *)

Lemma block_app (n : nat) (s : sha1.hstate) (p q : list Z) :
  (n * sha1.BlockSize <= length p)%nat →
  sha1.block n s (p ++ q) = (fst (sha1.block n s p), snd (sha1.block n s p) ++ q).
Proof.
  revert s p. induction n as [|n IH]; intros s p Hlen.
  - reflexivity.
  - cbn [sha1.block].
    rewrite firstn_app, skipn_app.
    replace (sha1.BlockSize - length p)%nat with 0%nat by lia.
    rewrite firstn_O, skipn_O, app_nil_r. apply IH.
    rewrite length_skipn. lia.
Qed.

Lemma block_add (n m : nat) (s : sha1.hstate) (p : list Z) :
  sha1.block (n + m) s p =
  sha1.block m (fst (sha1.block n s p)) (snd (sha1.block n s p)).
Proof.
  revert s p. induction n as [|n IH]; intros s p; simpl; [reflexivity|apply IH].
Qed.

Lemma block_rest (n : nat) (s : sha1.hstate) (p : list Z) :
  snd (sha1.block n s p) = skipn (n * sha1.BlockSize) p.
Proof.
  revert s p. induction n as [|n IH]; intros s p; [reflexivity|].
  cbn [sha1.block]. rewrite IH, skipn_skipn. f_equal. lia.
Qed.

Lemma sha1_padding_go (l : Z) :
  0 <= l →
  (0x80 :: repeat 0 (Z.to_nat (if l mod 64 <? 56 then 56 - l mod 64 else 64 + 56 - l mod 64) - 1))
    ++ sha1.putUint64 ((l * 8) mod 2 ^ 64)
  = sha1_padding l.
Proof.
  intros Hl. unfold sha1_padding. rewrite <- app_comm_cons. do 3 f_equal.
  pose proof (Z.mod_pos_bound l 64 ltac:(lia)) as Hm.
  assert (Hr : (55 - l) mod 64 = if l mod 64 <? 56 then 55 - l mod 64 else 119 - l mod 64).
  { destruct (l mod 64 <? 56) eqn:Hc.
    - apply Z.ltb_lt in Hc. symmetry. apply (Z.mod_unique_pos _ _ (- (l / 64))); [lia|].
      pose proof (Z.div_mod l 64 ltac:(lia)). lia.
    - apply Z.ltb_ge in Hc. symmetry. apply (Z.mod_unique_pos _ _ (- (l / 64) - 1)); [lia|].
      pose proof (Z.div_mod l 64 ltac:(lia)). lia. }
  rewrite Hr. destruct (l mod 64 <? 56) eqn:Hc.
  - apply Z.ltb_lt in Hc. lia.
  - apply Z.ltb_ge in Hc. lia.
Qed.

Lemma Write_eq (d : sha1.digest) (p : list Z) :
  sha1.Write d p =
  sha1.Digest
    (fst (sha1.block (length (sha1.x d ++ p) / sha1.BlockSize)%nat (sha1.h d) (sha1.x d ++ p)))
    (snd (sha1.block (length (sha1.x d ++ p) / sha1.BlockSize)%nat (sha1.h d) (sha1.x d ++ p)))
    (sha1.len d + Z.of_nat (length p)).
Proof. unfold sha1.Write. destruct (sha1.block _ _ _). reflexivity. Qed.

(** Writing the message and then the padding into the hasher hashes the
    padded message block by block. *)
Lemma sha1_Sum_SHA1 (msg : list Z) :
  sha1.Sum (sha1.Write sha1.New msg) [] = SHA1 msg.
Proof.
  unfold sha1.Sum, sha1.checkSum, SHA1. rewrite app_nil_l.
  rewrite (Write_eq sha1.New msg).
  cbn [sha1.len sha1.x sha1.h]. change (sha1.x sha1.New) with (@nil Z).
  change (sha1.len sha1.New) with 0. rewrite app_nil_l, Z.add_0_l.
  set (n := Z.of_nat (length msg)).
  assert (Hn : 0 <= n) by (unfold n; lia).
  rewrite (sha1_padding_go n Hn).
  set (pad := sha1_padding n).
  rewrite Write_eq. cbn [sha1.len sha1.x sha1.h].
  set (q := (length msg / sha1.BlockSize)%nat).
  set (s0 := sha1.h sha1.New).
  assert (Hq : (q * sha1.BlockSize <= length msg)%nat).
  { unfold q, sha1.BlockSize. pose proof (Nat.div_mod_eq (length msg) 64). lia. }
  set (r1 := snd (sha1.block q s0 msg)).
  assert (Hlr : (length r1 + q * sha1.BlockSize = length msg)%nat).
  { unfold r1. rewrite block_rest, length_skipn. lia. }
  assert (Hcnt : (length (msg ++ pad) / sha1.BlockSize
                  = q + length (r1 ++ pad) / sha1.BlockSize)%nat).
  { rewrite !length_app. unfold sha1.BlockSize in *.
    replace (length msg + length pad)%nat with ((length r1 + length pad) + q * 64)%nat by lia.
    rewrite Nat.div_add by lia. lia. }
  rewrite Hcnt, block_add, (block_app q s0 msg pad Hq).
  cbn [fst snd]. reflexivity.
Qed.

Lemma length_putUint32 (v : Z) : length (sha1.putUint32 v) = 4%nat.
Proof. reflexivity. Qed.

Lemma length_SHA1 (msg : list Z) : length (SHA1 msg) = sha1.Size.
Proof. unfold SHA1. rewrite !length_app, !length_putUint32. reflexivity. Qed.

Lemma SHA1_bytes (msg : list Z) : Forall (λ b, 0 <= b < 256) (SHA1 msg).
Proof.
  assert (Hb : ∀ v, 0 <= Z.land v 255 < 256).
  { intros v. change 255 with (Z.ones 8). rewrite Z.land_ones by lia.
    apply Z.mod_pos_bound. lia. }
  unfold SHA1. repeat (apply Forall_app; split); unfold sha1.putUint32;
    repeat constructor; apply Hb.
Qed.

Lemma sha1Base64_SHA1 (str : string) :
  sha1Base64 str = base64.EncodeToString (SHA1 (bytes_of_string str)).
Proof. unfold sha1Base64, io_WriteString. rewrite sha1_Sum_SHA1. reflexivity. Qed.

(** ** Running the monad *)

Lemma bind_Ok {Net A B} (m : M Net A) (f : A → M Net B) (σ σ' : world Net) (a : A) :
  m σ = (Ok a, σ') → (m ≫= f) σ = f a σ'.
Proof. intros Hm. unfold mbind, M_bind. rewrite Hm. reflexivity. Qed.

Lemma bind_Panic {Net A B} (m : M Net A) (f : A → M Net B) (σ σ' : world Net) :
  m σ = (Panic, σ') → (m ≫= f) σ = (Panic, σ').
Proof. intros Hm. unfold mbind, M_bind. rewrite Hm. reflexivity. Qed.

Lemma set_headers_insert_insert {Net} (l : loc) (a b : http.Header) (σ : world Net) :
  set_headers <[l := a]> (set_headers <[l := b]> σ) = set_headers <[l := a]> σ.
Proof. unfold set_headers. simpl. f_equal. apply insert_insert_eq. Qed.

Lemma fresh_header {Net} (σ : world Net) : headers σ !! fresh (dom (headers σ)) = None.
Proof. apply not_elem_of_dom, is_fresh. Qed.

Lemma make_Header_run {Net} (σ : world Net) :
  make_Header σ = (Ok (Some (fresh (dom (headers σ)))),
                   set_headers <[fresh (dom (headers σ)) := ∅]> σ).
Proof. reflexivity. Qed.

Lemma write_Header_run {Net} (l : loc) (h : http.Header) (f : http.Header → http.Header)
    (σ : world Net) :
  headers σ !! l = Some h →
  write_Header (Some l) f σ = (Ok tt, set_headers <[l := f h]> σ).
Proof. intros Hl. unfold write_Header. simpl. rewrite Hl. reflexivity. Qed.

Lemma Header_Get_run {Net} (r : option loc) (key : string) (σ : world Net) :
  Header_Get r key σ = (Ok (http.Get (default ∅ (deref σ r)) key), σ).
Proof. reflexivity. Qed.

Ltac canon :=
  repeat match goal with
  | |- context [textproto.CanonicalMIMEHeaderKey ?s] =>
      let r := eval vm_compute in (textproto.CanonicalMIMEHeaderKey s) in
      change (textproto.CanonicalMIMEHeaderKey s) with r
  end.

(** ** The accept key *)

Lemma generateAcceptKey_run {Net} (req : Request.t) (σ : world Net) :
  generateAcceptKey req σ = (Ok (accept_token (nonce_of σ req)), σ).
Proof.
  unfold generateAcceptKey. erewrite bind_Ok by apply Header_Get_run.
  unfold mret, M_ret. rewrite sha1Base64_SHA1. reflexivity.
Qed.

(** Allocating a map that holds no [Sec-Websocket-Key] entry leaves the
    nonce of every request as it was. *)
Lemma nonce_of_alloc {Net} (σ : world Net) (req : Request.t) (l : loc) (h : http.Header) :
  headers σ !! l = None →
  h !! "Sec-Websocket-Key"%string = None →
  nonce_of (set_headers <[l := h]> σ) req = nonce_of σ req.
Proof.
  intros Hl Hh. unfold nonce_of, http.Get. canon.
  destruct (Request.Header req) as [l0|]; simpl; [|reflexivity].
  destruct (decide (l = l0)) as [->|Hne].
  - rewrite lookup_insert_eq, Hl. simpl. rewrite Hh, lookup_empty. reflexivity.
  - rewrite lookup_insert_ne by done. reflexivity.
Qed.

(** C1. For every nonce [k], the accept-token computation returns the
    base64 encoding of the SHA-1 digest of [k] followed by the GUID
    [258EAFA5-E914-47DA-95CA-C5AB0DC85B11]; that digest has 20 bytes; on
    a request whose nonce is [k], [generateAcceptKey] returns this token,
    which depends on nothing but [k], and leaves the store as it is; on
    the nonce of RFC 6455 the token is [s3pPLMBiTxaQ9kYGzzhZRbK+xOo=]. *)
Theorem accept_token_computation {Net} (σ : world Net) (req : Request.t) (k : string) :
  nonce_of σ req = k →
  sha1Base64 (k +:+ "258EAFA5-E914-47DA-95CA-C5AB0DC85B11")
    = base64.EncodeToString
        (SHA1 (bytes_of_string (k +:+ "258EAFA5-E914-47DA-95CA-C5AB0DC85B11")))
  ∧ length (SHA1 (bytes_of_string (k +:+ "258EAFA5-E914-47DA-95CA-C5AB0DC85B11"))) = 20%nat
  ∧ Forall (λ b, 0 <= b < 256)
      (SHA1 (bytes_of_string (k +:+ "258EAFA5-E914-47DA-95CA-C5AB0DC85B11")))
  ∧ generateAcceptKey req σ
    = (Ok (sha1Base64 (k +:+ "258EAFA5-E914-47DA-95CA-C5AB0DC85B11")), σ)
  ∧ sha1Base64 ("dGhlIHNhbXBsZSBub25jZQ==" +:+ "258EAFA5-E914-47DA-95CA-C5AB0DC85B11")
    = "s3pPLMBiTxaQ9kYGzzhZRbK+xOo="%string.
Proof.
  intros Hk. split; [apply sha1Base64_SHA1|].
  split; [apply length_SHA1|]. split; [apply SHA1_bytes|]. split.
  - rewrite generateAcceptKey_run, Hk, sha1Base64_SHA1. reflexivity.
  - vm_compute. reflexivity.
Qed.

Lemma accept_token_computation_witness :
  nonce_of sample_world sample_req = "dGhlIHNhbXBsZSBub25jZQ=="%string
  ∧ generateAcceptKey sample_req sample_world
    = (Ok (sha1Base64 ("dGhlIHNhbXBsZSBub25jZQ==" +:+ "258EAFA5-E914-47DA-95CA-C5AB0DC85B11")),
       sample_world).
Proof.
  split; [vm_compute; reflexivity|].
  apply (accept_token_computation sample_world sample_req "dGhlIHNhbXBsZSBub25jZQ==").
  vm_compute; reflexivity.
Defined.

(** ** The scheme *)

(** C5. The scheme translator follows the table: [https] gives [wss],
    [http] gives [ws], the empty scheme gives [ws], any other scheme is
    returned unchanged. *)
Theorem ChangeRequestScheme_table (reqURL : url.URL) :
  (url.Scheme reqURL = "https"%string → ChangeRequestScheme reqURL = "wss"%string)
  ∧ (url.Scheme reqURL = "http"%string → ChangeRequestScheme reqURL = "ws"%string)
  ∧ (url.Scheme reqURL = ""%string → ChangeRequestScheme reqURL = "ws"%string)
  ∧ (url.Scheme reqURL ≠ "https"%string → url.Scheme reqURL ≠ "http"%string →
     url.Scheme reqURL ≠ ""%string → ChangeRequestScheme reqURL = url.Scheme reqURL).
Proof.
  unfold ChangeRequestScheme. repeat split.
  - intros ->. reflexivity.
  - intros ->. reflexivity.
  - intros ->. reflexivity.
  - intros H1 H2 H3.
    apply String.eqb_neq in H1, H2, H3. rewrite H1, H2, H3. reflexivity.
Qed.

Lemma ChangeRequestScheme_table_witness :
  ChangeRequestScheme (url.mkURL "https" "" "example.com" "/chat" "" "") = "wss"%string
  ∧ ChangeRequestScheme (url.mkURL "http" "" "example.com" "/chat" "" "") = "ws"%string
  ∧ ChangeRequestScheme (url.mkURL "" "" "example.com" "/chat" "" "") = "ws"%string
  ∧ ChangeRequestScheme (url.mkURL "wss" "" "example.com" "/chat" "" "") = "wss"%string
  ∧ ChangeRequestScheme (url.mkURL "ftp" "" "example.com" "/chat" "" "") = "ftp"%string.
Proof.
  destruct (ChangeRequestScheme_table (url.mkURL "https" "" "example.com" "/chat" "" ""))
    as (H1 & _).
  destruct (ChangeRequestScheme_table (url.mkURL "http" "" "example.com" "/chat" "" ""))
    as (_ & H2 & _).
  destruct (ChangeRequestScheme_table (url.mkURL "" "" "example.com" "/chat" "" ""))
    as (_ & _ & H3 & _).
  destruct (ChangeRequestScheme_table (url.mkURL "wss" "" "example.com" "/chat" "" ""))
    as (_ & _ & _ & H4).
  destruct (ChangeRequestScheme_table (url.mkURL "ftp" "" "example.com" "/chat" "" ""))
    as (_ & _ & _ & H5).
  split; [exact (H1 eq_refl)|]. split; [exact (H2 eq_refl)|]. split; [exact (H3 eq_refl)|].
  split; [apply H4|apply H5]; simpl; discriminate.
Defined.

(** ** The response header *)

Lemma Add_thrice (token : string) :
  http.Add (http.Add (http.Add ∅ "Connection" "Upgrade") "Sec-Websocket-Accept" token)
           "Upgrade" "websocket"
  = response_header token.
Proof.
  unfold http.Add, response_header. canon.
  rewrite lookup_empty.
  rewrite (lookup_insert_ne _ "Connection"%string "Sec-Websocket-Accept"%string) by done.
  rewrite lookup_empty.
  rewrite (lookup_insert_ne _ "Sec-Websocket-Accept"%string "Upgrade"%string) by done.
  rewrite (lookup_insert_ne _ "Connection"%string "Upgrade"%string) by done.
  rewrite lookup_empty. reflexivity.
Qed.

Lemma response_header_entries (token : string) :
  map_to_list (response_header token)
  ≡ₚ [("Connection"%string, ["Upgrade"%string]);
      ("Sec-Websocket-Accept"%string, [token]);
      ("Upgrade"%string, ["websocket"%string])].
Proof.
  unfold response_header.
  rewrite map_to_list_insert
    by (rewrite !lookup_insert_ne by done; apply lookup_empty).
  rewrite map_to_list_insert by (rewrite lookup_insert_ne by done; apply lookup_empty).
  rewrite map_to_list_insert by apply lookup_empty.
  rewrite map_to_list_empty.
  apply (Permutation_rev [_; _; _]).
Qed.

Lemma response_header_no_key (token : string) :
  response_header token !! "Sec-Websocket-Key"%string = None.
Proof. unfold response_header. rewrite !lookup_insert_ne by done. apply lookup_empty. Qed.

Lemma NewResponseHeader_run {Net} (req : Request.t) (σ : world Net) :
  NewResponseHeader req σ
  = (Ok (Some (fresh (dom (headers σ)))),
     set_headers <[fresh (dom (headers σ)) := response_header (accept_token (nonce_of σ req))]> σ).
Proof.
  unfold NewResponseHeader.
  set (l := fresh (dom (headers σ))).
  erewrite bind_Ok by apply make_Header_run. fold l.
  erewrite bind_Ok
    by (apply write_Header_run; simpl; apply lookup_insert_eq).
  rewrite set_headers_insert_insert.
  erewrite bind_Ok by apply generateAcceptKey_run.
  rewrite nonce_of_alloc;
    [|apply fresh_header|unfold http.Add; canon; rewrite lookup_insert_ne by done; apply lookup_empty].
  erewrite bind_Ok
    by (apply write_Header_run; simpl; apply lookup_insert_eq).
  rewrite set_headers_insert_insert.
  erewrite bind_Ok
    by (apply write_Header_run; simpl; apply lookup_insert_eq).
  rewrite set_headers_insert_insert.
  unfold mret, M_ret. rewrite Add_thrice. reflexivity.
Qed.

(** C7. For every request, the response header builder returns a new
    header map holding exactly three entries, [Connection: Upgrade],
    [Upgrade: websocket] and [Sec-Websocket-Accept] with the accept token
    of the request's nonce, and touches nothing else; a second call with
    the same request returns a map with the same contents. *)
Theorem NewResponseHeader_exact {Net} (req : Request.t) (σ : world Net) :
  ∃ (l l' : loc) (σ' σ'' : world Net),
    NewResponseHeader req σ = (Ok (Some l), σ')
    ∧ headers σ !! l = None
    ∧ headers σ' = <[l := response_header (accept_token (nonce_of σ req))]> (headers σ)
    ∧ urls σ' = urls σ ∧ net σ' = net σ
    ∧ map_to_list (response_header (accept_token (nonce_of σ req)))
      ≡ₚ [("Connection"%string, ["Upgrade"%string]);
          ("Sec-Websocket-Accept"%string, [accept_token (nonce_of σ req)]);
          ("Upgrade"%string, ["websocket"%string])]
    ∧ NewResponseHeader req σ' = (Ok (Some l'), σ'')
    ∧ deref σ'' (Some l') = deref σ' (Some l)
    ∧ deref σ'' (Some l) = deref σ' (Some l).
Proof.
  set (l := fresh (dom (headers σ))).
  set (σ' := set_headers <[l := response_header (accept_token (nonce_of σ req))]> σ).
  set (l' := fresh (dom (headers σ'))).
  exists l, l', σ',
    (set_headers <[l' := response_header (accept_token (nonce_of σ' req))]> σ').
  assert (Hl : headers σ !! l = None) by apply fresh_header.
  assert (Hl' : headers σ' !! l' = None) by apply fresh_header.
  assert (Hne : l' ≠ l).
  { intros Heq. rewrite Heq in Hl'. unfold σ' in Hl'. simpl in Hl'.
    rewrite lookup_insert_eq in Hl'. discriminate. }
  assert (Hn : nonce_of σ' req = nonce_of σ req).
  { apply nonce_of_alloc; [exact Hl|apply response_header_no_key]. }
  split; [apply NewResponseHeader_run|].
  split; [exact Hl|]. split; [reflexivity|]. split; [reflexivity|]. split; [reflexivity|].
  split; [apply response_header_entries|].
  split; [apply NewResponseHeader_run|].
  simpl. rewrite (lookup_insert_ne _ l' l) by done.
  rewrite !lookup_insert_eq, Hn. split; reflexivity.
Qed.

Example accept_token_empty : accept_token "" = "Kfh9QIsMVZcl6xEPYxPHzW8SZ8w="%string.
Proof. vm_compute. reflexivity. Qed.

(** C9. When the request has no [Sec-Websocket-Key] header, the response
    header builder does not panic: it returns the three headers, the
    accept token being the one of the empty nonce, that is the base64
    encoding [Kfh9QIsMVZcl6xEPYxPHzW8SZ8w=] of the SHA-1 digest of the
    GUID alone, 28 characters long. *)
Theorem NewResponseHeader_without_key {Net} (req : Request.t) (σ : world Net) :
  default ∅ (deref σ (Request.Header req)) !! "Sec-Websocket-Key"%string = None →
  NewResponseHeader req σ
  = (Ok (Some (fresh (dom (headers σ)))),
     set_headers
       <[fresh (dom (headers σ)) := response_header "Kfh9QIsMVZcl6xEPYxPHzW8SZ8w="]> σ)
  ∧ "Kfh9QIsMVZcl6xEPYxPHzW8SZ8w="%string
    = base64.EncodeToString (SHA1 (bytes_of_string "258EAFA5-E914-47DA-95CA-C5AB0DC85B11"))
  ∧ String.length "Kfh9QIsMVZcl6xEPYxPHzW8SZ8w=" = 28%nat.
Proof.
  intros Habs. split; [|split; [vm_compute; reflexivity|reflexivity]].
  rewrite NewResponseHeader_run.
  assert (Hn : nonce_of σ req = ""%string).
  { unfold nonce_of, http.Get. canon. rewrite Habs. reflexivity. }
  rewrite Hn, accept_token_empty. reflexivity.
Qed.

Lemma NewResponseHeader_without_key_witness :
  fst (NewResponseHeader (Request.mk "GET" 1%positive None "example.com") sample_world)
  = Ok (Some 2%positive).
Proof.
  pose proof (NewResponseHeader_without_key
                (Request.mk "GET" 1%positive None "example.com") sample_world eq_refl)
    as (Hrun & _).
  rewrite Hrun. vm_compute. reflexivity.
Defined.

(** ** Case folding and canonical keys *)

Ltac each_octet c :=
  destruct c as [[] [] [] [] [] [] [] []];
  intros Hc; vm_compute in Hc; try discriminate Hc; vm_compute; repeat split.

Lemma upper_octet (c : ascii) :
  textproto.is_upper c = true →
  textproto.is_lower c = false
  ∧ textproto.is_upper (textproto.add_byte c textproto.toLower) = false
  ∧ textproto.is_lower (textproto.add_byte c textproto.toLower) = true
  ∧ textproto.add_byte (textproto.add_byte c textproto.toLower) (- textproto.toLower) = c
  ∧ Ascii.eqb c "-" = false
  ∧ Ascii.eqb (textproto.add_byte c textproto.toLower) "-" = false.
Proof. each_octet c. Qed.

Lemma fold_octet_eq (c d : ascii) :
  gorilla.fold_octet c = gorilla.fold_octet d →
  c = d
  ∨ (textproto.is_upper c = true ∧ d = textproto.add_byte c textproto.toLower)
  ∨ (textproto.is_upper d = true ∧ c = textproto.add_byte d textproto.toLower).
Proof.
  unfold gorilla.fold_octet.
  destruct (textproto.is_upper c) eqn:Hc, (textproto.is_upper d) eqn:Hd; intros Heq; auto.
  left. destruct (upper_octet c Hc) as (_ & _ & _ & Hbc & _).
  destruct (upper_octet d Hd) as (_ & _ & _ & Hbd & _).
  rewrite <- Hbc, <- Hbd, Heq. reflexivity.
Qed.

(** Two octets that are equal up to case are both valid header field
    bytes or both not, and the canonical loop rewrites them alike. *)
Lemma fold_octet_canonical (c d : ascii) :
  gorilla.fold_octet c = gorilla.fold_octet d →
  textproto.validHeaderFieldByte c = textproto.validHeaderFieldByte d
  ∧ ∀ up a b, (∀ up', textproto.canonical_loop up' a = textproto.canonical_loop up' b) →
      textproto.canonical_loop up (String c a) = textproto.canonical_loop up (String d b).
Proof.
  intros Hf. destruct (fold_octet_eq c d Hf) as [->|[[Hu ->]|[Hu ->]]].
  - split; [reflexivity|]. intros up a b IH. cbn [textproto.canonical_loop]. rewrite IH.
    reflexivity.
  - destruct (upper_octet c Hu) as (Hl & Hu' & Hl' & Hback & Hd1 & Hd2).
    split.
    { unfold textproto.validHeaderFieldByte. rewrite Hu, Hl', Hl, Hu'. reflexivity. }
    intros up a b IH. cbn [textproto.canonical_loop].
    rewrite Hl, Hu, Hu', Hl', Hback. destruct up; simpl; rewrite ?Hd1, ?Hd2, IH; reflexivity.
  - destruct (upper_octet d Hu) as (Hl & Hu' & Hl' & Hback & Hd1 & Hd2).
    split.
    { unfold textproto.validHeaderFieldByte. rewrite Hu, Hl', Hl, Hu'. reflexivity. }
    intros up a b IH. cbn [textproto.canonical_loop].
    rewrite Hl, Hu, Hu', Hl', Hback. destruct up; simpl; rewrite ?Hd1, ?Hd2, IH; reflexivity.
Qed.

Lemma equalASCIIFold_canonical (a b : string) :
  gorilla.equalASCIIFold a b = true →
  textproto.all_valid a = textproto.all_valid b
  ∧ ∀ up, textproto.canonical_loop up a = textproto.canonical_loop up b.
Proof.
  revert b. induction a as [|c a IH]; intros [|d b] Heq; simpl in Heq; try discriminate.
  - split; reflexivity.
  - assert (Hcd : gorilla.fold_octet c = gorilla.fold_octet d
                  ∧ gorilla.equalASCIIFold a b = true).
    { destruct (Ascii.eqb c d) eqn:E1.
      - apply Ascii.eqb_eq in E1. subst d. split; [reflexivity|exact Heq].
      - destruct (Ascii.eqb (gorilla.fold_octet c) (gorilla.fold_octet d)) eqn:E2;
          [|discriminate].
        apply Ascii.eqb_eq in E2. split; [exact E2|exact Heq]. }
    destruct Hcd as [Hf Hab]. destruct (IH b Hab) as [Hv Hc].
    destruct (fold_octet_canonical c d Hf) as [Hvc Hcc]. split.
    + cbn [textproto.all_valid]. rewrite Hvc, Hv. reflexivity.
    + intros up. apply Hcc. exact Hc.
Qed.

(** Header names that are equal up to case have the same canonical key. *)
Lemma CanonicalMIMEHeaderKey_fold (a b : string) :
  textproto.all_valid b = true →
  gorilla.equalASCIIFold a b = true →
  textproto.CanonicalMIMEHeaderKey a = textproto.CanonicalMIMEHeaderKey b.
Proof.
  intros Hb Heq. destruct (equalASCIIFold_canonical a b Heq) as [Hv Hc].
  unfold textproto.CanonicalMIMEHeaderKey. rewrite Hv, Hb. apply Hc.
Qed.

(** ** The outbound headers *)

Lemma default_deref_alloc {Net} (σ : world Net) (r : option loc) (l : loc) :
  headers σ !! l = None →
  default ∅ (deref (set_headers <[l := ∅]> σ) r) = default ∅ (deref σ r).
Proof.
  intros Hl. destruct r as [l0|]; simpl; [|reflexivity].
  destruct (decide (l = l0)) as [->|Hne].
  - rewrite lookup_insert_eq, Hl. reflexivity.
  - rewrite lookup_insert_ne by done. reflexivity.
Qed.

(** The copying loop leaves in the new map the entries of the map it
    ranges over, on top of what the new map held. *)
Lemma range_Header_store {Net} (l : loc) (h : http.Header) :
  ∀ (σ : world Net) (acc : http.Header),
    headers σ !! l = Some acc →
    range_Header h (λ key val, Header_store (Some l) key val) σ
    = (Ok tt, set_headers <[l := h ∪ acc]> σ).
Proof.
  unfold range_Header.
  apply (map_fold_weak_ind
    (λ (r : M Net unit) (m : http.Header),
       ∀ (σ : world Net) (acc : http.Header),
         headers σ !! l = Some acc → r σ = (Ok tt, set_headers <[l := m ∪ acc]> σ))).
  - intros σ acc Hl. rewrite (left_id_L ∅ (∪)). unfold mret, M_ret, set_headers.
    rewrite insert_id by exact Hl. destruct σ; reflexivity.
  - intros key val m r Hm IH σ acc Hl.
    erewrite bind_Ok by (apply IH; exact Hl).
    unfold Header_store.
    erewrite write_Header_run by (simpl; apply lookup_insert_eq).
    rewrite set_headers_insert_insert. unfold http.store.
    rewrite insert_union_l. reflexivity.
Qed.

(** The stripping loop deletes the five handshake headers. *)
Lemma range_slice_Del {Net} (l : loc) (h : http.Header) (σ : world Net) :
  headers σ !! l = Some h →
  range_slice stripWebsocketHeaders (λ header, Header_Del (Some l) header) σ
  = (Ok tt,
     set_headers
       <[l := delete "Sec-Websocket-Extensions"%string
               (delete "Sec-Websocket-Version"%string
                 (delete "Sec-Websocket-Key"%string
                   (delete "Connection"%string
                     (delete "Upgrade"%string h))))]> σ).
Proof.
  intros Hl.
  assert (Hdel : ∀ (σ0 : world Net) (h0 : http.Header) (key : string),
             headers σ0 !! l = Some h0 →
             Header_Del (Some l) key σ0 = (Ok tt, set_headers <[l := http.Del h0 key]> σ0)).
  { intros σ0 h0 key H0. unfold Header_Del. cbn [deref]. rewrite H0.
    apply (write_Header_run l h0 (λ h1, http.Del h1 key)). exact H0. }
  unfold stripWebsocketHeaders. cbn [range_slice].
  erewrite bind_Ok by (apply Hdel; exact Hl).
  erewrite bind_Ok by (apply Hdel; simpl; apply lookup_insert_eq).
  rewrite set_headers_insert_insert.
  erewrite bind_Ok by (apply Hdel; simpl; apply lookup_insert_eq).
  rewrite set_headers_insert_insert.
  erewrite bind_Ok by (apply Hdel; simpl; apply lookup_insert_eq).
  rewrite set_headers_insert_insert.
  erewrite bind_Ok by (apply Hdel; simpl; apply lookup_insert_eq).
  rewrite set_headers_insert_insert.
  unfold mret, M_ret, http.Del. canon. reflexivity.
Qed.

Lemma websocketHeaders_run {Net} (req : Request.t) (σ : world Net) :
  websocketHeaders req σ
  = (Ok (Some (fresh (dom (headers σ)))),
     set_headers
       <[fresh (dom (headers σ)) :=
           sanitized (default ∅ (deref σ (Request.Header req))) (Request.Host req)]> σ).
Proof.
  unfold websocketHeaders.
  set (l := fresh (dom (headers σ))).
  assert (Hl : headers σ !! l = None) by apply fresh_header.
  erewrite bind_Ok by apply make_Header_run. fold l.
  erewrite bind_Ok by reflexivity.
  rewrite (default_deref_alloc σ _ l Hl).
  erewrite bind_Ok by (apply range_Header_store; simpl; apply lookup_insert_eq).
  rewrite set_headers_insert_insert, (right_id_L ∅ (∪)).
  erewrite bind_Ok by (apply range_slice_Del; simpl; apply lookup_insert_eq).
  rewrite set_headers_insert_insert.
  erewrite bind_Ok by (apply write_Header_run; simpl; apply lookup_insert_eq).
  rewrite set_headers_insert_insert.
  unfold mret, M_ret, http.Set_, sanitized. canon. reflexivity.
Qed.

Lemma sanitized_Host (h : http.Header) (host : string) :
  sanitized h host !! "Host"%string = Some [host].
Proof. apply lookup_insert_eq. Qed.

Lemma sanitized_strip (h : http.Header) (host k : string) :
  In k stripWebsocketHeaders → sanitized h host !! k = None.
Proof.
  unfold sanitized, stripWebsocketHeaders. simpl.
  intros [<-|[<-|[<-|[<-|[<-|[]]]]]];
    rewrite lookup_insert_ne by done;
    repeat first [apply lookup_delete_eq | rewrite lookup_delete_ne by done].
Qed.

Lemma sanitized_other (h : http.Header) (host k : string) :
  ¬ In k stripWebsocketHeaders → k ≠ "Host"%string → sanitized h host !! k = h !! k.
Proof.
  unfold sanitized, stripWebsocketHeaders. simpl. intros Hk Hh.
  rewrite lookup_insert_ne by done.
  rewrite !lookup_delete_ne by (intros <-; tauto). reflexivity.
Qed.

Lemma sanitized_absent (h : http.Header) (host k : string) :
  h !! k = None → k ≠ "Host"%string → sanitized h host !! k = None.
Proof.
  unfold sanitized. intros Hk Hh. rewrite lookup_insert_ne by done.
  repeat (apply lookup_delete_None; right). exact Hk.
Qed.

Lemma sanitized_fold (h : http.Header) (host k : string) :
  canonical_keys h → excluded_fold k = true → sanitized h host !! k = None.
Proof.
  intros Hcan Hex. unfold excluded_fold in Hex.
  apply existsb_exists in Hex. destruct Hex as (s & Hs & Hfold).
  assert (Hsv : textproto.all_valid s = true ∧ textproto.CanonicalMIMEHeaderKey s = s).
  { unfold stripWebsocketHeaders in Hs. simpl in Hs.
    destruct Hs as [<-|[<-|[<-|[<-|[<-|[]]]]]]; split; reflexivity. }
  destruct Hsv as [Hv Hcs].
  pose proof (CanonicalMIMEHeaderKey_fold k s Hv Hfold) as Hks. rewrite Hcs in Hks.
  destruct (h !! k) as [v|] eqn:Hk.
  - rewrite (Hcan k v Hk) in Hks. subst k. apply sanitized_strip. exact Hs.
  - apply sanitized_absent; [exact Hk|].
    intros ->. vm_compute in Hks. subst s. revert Hs. unfold stripWebsocketHeaders. simpl.
    intros [?|[?|[?|[?|[?|[]]]]]]; discriminate.
Qed.

(** C2 (as the code has it). For every request, the header sanitizer
    returns a new map and leaves every other object as it was; the new
    map holds the entries of the inbound map except those whose key is,
    byte for byte, one of [Upgrade], [Connection], [Sec-Websocket-Key],
    [Sec-Websocket-Version], [Sec-Websocket-Extensions], and its [Host]
    entry is the single value [req.Host], whether or not the inbound map
    had one.  When the keys of the inbound map are in canonical format,
    the new map has no key that names one of the five headers in any
    casing. *)
Theorem websocketHeaders_sanitizes {Net} (req : Request.t) (σ : world Net) :
  let h := default ∅ (deref σ (Request.Header req)) in
  let out := sanitized h (Request.Host req) in
  let l := fresh (dom (headers σ)) in
  websocketHeaders req σ = (Ok (Some l), set_headers <[l := out]> σ)
  ∧ headers σ !! l = None
  ∧ out !! "Host"%string = Some [Request.Host req]
  ∧ (∀ k, In k stripWebsocketHeaders → out !! k = None)
  ∧ (∀ k, ¬ In k stripWebsocketHeaders → k ≠ "Host"%string → out !! k = h !! k)
  ∧ (canonical_keys h → ∀ k, excluded_fold k = true → out !! k = None).
Proof.
  intros h out l.
  split; [apply websocketHeaders_run|]. split; [apply fresh_header|].
  split; [apply sanitized_Host|]. split; [intros k; apply sanitized_strip|].
  split; [intros k; apply sanitized_other|].
  intros Hcan k. apply sanitized_fold. exact Hcan.
Qed.

Lemma sample_headers_canonical : canonical_keys sample_headers.
Proof.
  unfold canonical_keys, sample_headers. repeat (apply map_Forall_insert_2; [reflexivity|]).
  apply map_Forall_empty.
Qed.

Lemma websocketHeaders_sanitizes_witness :
  canonical_keys (default ∅ (deref sample_world (Request.Header sample_req)))
  ∧ sanitized sample_headers "example.com" !! "Sec-Websocket-Key"%string = None
  ∧ sanitized sample_headers "example.com" !! "User-Agent"%string = Some ["curl"%string].
Proof.
  destruct (websocketHeaders_sanitizes sample_req sample_world)
    as (_ & _ & _ & _ & Hother & Hfold).
  split; [exact sample_headers_canonical|]. split.
  - apply (Hfold sample_headers_canonical "Sec-Websocket-Key"%string). reflexivity.
  - apply (Hother "User-Agent"%string).
    + unfold stripWebsocketHeaders. simpl. intros [?|[?|[?|[?|[?|[]]]]]]; discriminate.
    + discriminate.
Defined.

(** C2 as stated fails: a key that differs in case from an excluded
    name is copied to the outbound map. *)
Lemma websocketHeaders_case_sensitive :
  ¬ (∀ (req : Request.t) (σ : world nat) (l : loc) (σ' : world nat) (k : string),
       websocketHeaders req σ = (Ok (Some l), σ') →
       excluded_fold k = true →
       default ∅ (deref σ' (Some l)) !! k = None).
Proof.
  intros Hclaim.
  specialize (Hclaim sample_req lowercase_world _ _ "upgrade"%string
                (websocketHeaders_run sample_req lowercase_world) eq_refl).
  vm_compute in Hclaim. discriminate Hclaim.
Qed.

(** ** The backend connector *)

Lemma load_URL_run {Net} (p : loc) (u : url.URL) (σ : world Net) :
  urls σ !! p = Some u → load_URL p σ = (Ok u, σ).
Proof. intros Hp. unfold load_URL. rewrite Hp. reflexivity. Qed.

Lemma store_Scheme_run {Net} (p : loc) (u : url.URL) (s : string) (σ : world Net) :
  urls σ !! p = Some u →
  store_Scheme p s σ = (Ok tt, set_urls <[p := url.set_Scheme u s]> σ).
Proof. intros Hp. unfold store_Scheme. rewrite Hp. reflexivity. Qed.

(** [ClientConnect] is the dial, made once the scheme is rewritten and
    the outbound headers are built, followed by the handling of its
    result. *)
Lemma ClientConnect_unfold `{External} (req : Request.t) (dialler : option Dialer)
    (σ : world Net) (u : url.URL) :
  urls σ !! Request.URL req = Some u →
  ClientConnect req dialler σ
  = after_dial req (fst (the_dial req dialler σ u)) (snd (the_dial req dialler σ u)).
Proof.
  intros Hu. unfold ClientConnect.
  erewrite bind_Ok by (apply load_URL_run; exact Hu).
  erewrite bind_Ok by (apply store_Scheme_run; exact Hu).
  erewrite bind_Ok by apply websocketHeaders_run.
  erewrite bind_Ok by (apply load_URL_run; simpl; apply lookup_insert_eq).
  unfold the_dial, before_dial, chosen, translated. simpl headers.
  set (d := match dialler with Some d => d | None => defaultDialer end).
  unfold mbind at 1, M_bind at 1, Dialer_Dial.
  change (deref (set_urls <[Request.URL req:=url.set_Scheme u (ChangeRequestScheme u)]> σ)
            (Request.Header req)) with (deref σ (Request.Header req)).
  destruct (Dial d _ _ _) as [[[conn response] err] σ2]. reflexivity.
Qed.

Lemma Set_Get (h : http.Header) (value : string) :
  http.Get (http.Set_ h "Sec-WebSocket-Accept" value) "Sec-WebSocket-Accept" = value.
Proof. unfold http.Get, http.Set_. canon. rewrite lookup_insert_eq. reflexivity. Qed.

(** C3. On a successful dial whose response carries a header map, and
    which has left the headers of the inbound request as they were, the
    backend connector sets the [Sec-Websocket-Accept] entry of that map
    to the accept token of the inbound request's nonce, whatever the
    backend had put there; it changes nothing else and returns the
    connection, the response and no error. *)
Theorem ClientConnect_success `{External} (req : Request.t) (dialler : option Dialer)
    (σ σ2 : world Net) (u : url.URL) (conn : option Conn) (resp : Response.t)
    (lr : loc) (hr : http.Header) :
  urls σ !! Request.URL req = Some u →
  the_dial req dialler σ u = ((conn, Some resp, None), σ2) →
  Response.Header resp = Some lr →
  headers σ2 !! lr = Some hr →
  deref σ2 (Request.Header req) = deref σ (Request.Header req) →
  ClientConnect req dialler σ
  = (Ok (conn, Some resp, None),
     set_headers <[lr := <["Sec-Websocket-Accept"%string := [accept_token (nonce_of σ req)]]> hr]> σ2)
  ∧ accept_token (nonce_of σ req)
    = sha1Base64 (nonce_of σ req +:+ "258EAFA5-E914-47DA-95CA-C5AB0DC85B11")
  ∧ http.Get (<["Sec-Websocket-Accept"%string := [accept_token (nonce_of σ req)]]> hr)
             "Sec-WebSocket-Accept"
    = accept_token (nonce_of σ req).
Proof.
  intros Hu Hdial Hresp Hlr Hframe.
  split; [|split].
  - rewrite (ClientConnect_unfold req dialler σ u Hu), Hdial. cbn [fst snd after_dial].
    erewrite bind_Ok by apply generateAcceptKey_run.
    assert (Hn : nonce_of σ2 req = nonce_of σ req).
    { unfold nonce_of. rewrite Hframe. reflexivity. }
    rewrite Hn, Hresp. unfold Header_Set.
    erewrite bind_Ok by (apply write_Header_run; exact Hlr).
    unfold mret, M_ret, http.Set_. canon. reflexivity.
  - unfold accept_token. symmetry. apply sha1Base64_SHA1.
  - apply (Set_Get hr).
Qed.

(** C4. On a dial failure the backend connector returns no connection,
    the response the dial attempt gave, if any, and the very error of
    the dial; the world is left as that one dial left it: nothing is
    dialled again. *)
Theorem ClientConnect_failure `{External} (req : Request.t) (dialler : option Dialer)
    (σ σ2 : world Net) (u : url.URL) (conn : option Conn) (resp : option Response.t)
    (e : Err) :
  urls σ !! Request.URL req = Some u →
  the_dial req dialler σ u = ((conn, resp, Some e), σ2) →
  ClientConnect req dialler σ = (Ok (None, resp, Some e), σ2).
Proof.
  intros Hu Hdial.
  rewrite (ClientConnect_unfold req dialler σ u Hu), Hdial. reflexivity.
Qed.

Lemma ClientConnect_success_witness :
  fst (@ClientConnect toy sample_req None sample_world)
  = Ok (Some "wss://example.com/chat"%string, Some (Response.mk 101 (Some 3%positive)), None)
  ∧ http.Get (default ∅ (deref (snd (@ClientConnect toy sample_req None sample_world))
                               (Some 3%positive)))
             "Sec-WebSocket-Accept"
    = "s3pPLMBiTxaQ9kYGzzhZRbK+xOo="%string.
Proof.
  destruct (@ClientConnect_success toy sample_req None sample_world
              (snd (@the_dial toy sample_req None sample_world
                      (url.mkURL "https" "" "example.com" "/chat" "" "")))
              (url.mkURL "https" "" "example.com" "/chat" "" "")
              (Some "wss://example.com/chat"%string)
              (Response.mk 101 (Some 3%positive)) 3%positive
              (<["Sec-Websocket-Accept"%string := ["from-the-backend"%string]]> ∅))
    as (Hrun & _ & _).
  - reflexivity.
  - vm_compute. reflexivity.
  - reflexivity.
  - vm_compute. reflexivity.
  - vm_compute. reflexivity.
  - rewrite Hrun. split; [reflexivity|]. vm_compute. reflexivity.
Defined.

Lemma ClientConnect_failure_witness :
  @ClientConnect toy sample_req (Some false) sample_world
  = (Ok (None, Some (Response.mk 502 None), Some refused),
     snd (@the_dial toy sample_req (Some false) sample_world
            (url.mkURL "https" "" "example.com" "/chat" "" "")))
  ∧ net (snd (@ClientConnect toy sample_req (Some false) sample_world)) = 1%nat.
Proof.
  assert (Hrun := @ClientConnect_failure toy sample_req (Some false) sample_world
              (snd (@the_dial toy sample_req (Some false) sample_world
                      (url.mkURL "https" "" "example.com" "/chat" "" "")))
              (url.mkURL "https" "" "example.com" "/chat" "" "")
              None (Some (Response.mk 502 None)) refused eq_refl eq_refl).
  split; [exact Hrun|]. rewrite Hrun. reflexivity.
Defined.

(** ** What the backend connector changes *)

Lemma after_dial_frame `{External} (req : Request.t)
    (r : option Conn * option Response.t * option Err) (σ2 : world Net) :
  (∀ resp lr, r.1.2 = Some resp → Response.Header resp = Some lr →
              Request.Header req ≠ Some lr) →
  urls (snd (after_dial req r σ2)) = urls σ2
  ∧ net (snd (after_dial req r σ2)) = net σ2
  ∧ deref (snd (after_dial req r σ2)) (Request.Header req) = deref σ2 (Request.Header req).
Proof.
  destruct r as [[conn response] err]. simpl. intros Hown.
  destruct err as [e|]; [repeat split|].
  erewrite bind_Ok by apply generateAcceptKey_run.
  destruct response as [resp|]; [|repeat split].
  unfold Header_Set, write_Header.
  destruct (Response.Header resp) as [lr|] eqn:Hlr; [|repeat split].
  unfold mbind, M_bind. simpl.
  destruct (headers σ2 !! lr) as [hr|] eqn:Hhr; [|repeat split].
  simpl. split; [reflexivity|]. split; [reflexivity|].
  destruct (Request.Header req) as [l0|]; [|reflexivity]. simpl.
  apply lookup_insert_ne. intros ->. exact (Hown resp l0 eq_refl Hlr eq_refl).
Qed.

(** C10. [ClientConnect] changes the request in place: the dial is made
    in a world where the scheme of the request's URL object is already
    the translated one, the other URL objects, every header map that
    existed on entry and the outside world being as on entry and the
    outbound headers sitting in a new map; whatever the dial returns,
    success or failure, provided the dial itself leaves the request's URL
    object and header map alone and answers with a header map of its
    own, the URL object still has the translated scheme when
    [ClientConnect] returns and the request's header map is the one of
    entry. *)
Theorem ClientConnect_mutates_scheme `{External} (req : Request.t) (dialler : option Dialer)
    (σ : world Net) (u : url.URL) :
  urls σ !! Request.URL req = Some u →
  (∀ l, Request.Header req = Some l → is_Some (headers σ !! l)) →
  urls (snd (the_dial req dialler σ u)) !! Request.URL req
    = urls (before_dial req σ u) !! Request.URL req →
  deref (snd (the_dial req dialler σ u)) (Request.Header req)
    = deref (before_dial req σ u) (Request.Header req) →
  (∀ resp lr, (fst (the_dial req dialler σ u)).1.2 = Some resp →
              Response.Header resp = Some lr → Request.Header req ≠ Some lr) →
  ClientConnect req dialler σ
    = after_dial req (fst (the_dial req dialler σ u)) (snd (the_dial req dialler σ u))
  ∧ urls (before_dial req σ u) = <[Request.URL req := translated u]> (urls σ)
  ∧ url.Scheme (translated u) = ChangeRequestScheme u
  ∧ (∀ l h, headers σ !! l = Some h → headers (before_dial req σ u) !! l = Some h)
  ∧ net (before_dial req σ u) = net σ
  ∧ urls (snd (ClientConnect req dialler σ)) !! Request.URL req = Some (translated u)
  ∧ deref (snd (ClientConnect req dialler σ)) (Request.Header req)
    = deref σ (Request.Header req).
Proof.
  intros Hu Hwf Hfu Hfh Hown.
  pose proof (ClientConnect_unfold req dialler σ u Hu) as Hrun.
  assert (Hkeep : ∀ l h, headers σ !! l = Some h → headers (before_dial req σ u) !! l = Some h).
  { intros l h Hl. unfold before_dial. simpl. rewrite lookup_insert_ne; [exact Hl|].
    intros Heq. rewrite <- Heq, fresh_header in Hl. discriminate. }
  destruct (after_dial_frame req _ (snd (the_dial req dialler σ u)) Hown)
    as (Hau & _ & Hah).
  split; [exact Hrun|]. split; [reflexivity|]. split; [reflexivity|].
  split; [exact Hkeep|]. split; [reflexivity|]. split.
  - rewrite Hrun, Hau, Hfu. unfold before_dial. simpl. apply lookup_insert_eq.
  - rewrite Hrun, Hah, Hfh.
    destruct (Request.Header req) as [l0|] eqn:Hh; [|reflexivity].
    destruct (Hwf l0 eq_refl) as [h0 Hh0]. simpl deref.
    rewrite Hh0. apply Hkeep. exact Hh0.
Qed.

Lemma ClientConnect_mutates_scheme_witness :
  urls (snd (@ClientConnect toy sample_req (Some false) sample_world)) !! 1%positive
  = Some (url.mkURL "wss" "" "example.com" "/chat" "" "")
  ∧ deref (snd (@ClientConnect toy sample_req (Some false) sample_world)) (Some 1%positive)
    = Some sample_headers
  ∧ urls (snd (@ClientConnect toy sample_req None sample_world)) !! 1%positive
    = Some (url.mkURL "wss" "" "example.com" "/chat" "" "").
Proof.
  destruct (@ClientConnect_mutates_scheme toy sample_req (Some false) sample_world
              (url.mkURL "https" "" "example.com" "/chat" "" ""))
    as (_ & _ & _ & _ & _ & Hfail_url & Hfail_hdr).
  - reflexivity.
  - intros l Hl. injection Hl as <-. exists sample_headers. reflexivity.
  - vm_compute. reflexivity.
  - vm_compute. reflexivity.
  - intros resp lr Hr Hlr. vm_compute in Hr. injection Hr as <-. discriminate Hlr.
  - destruct (@ClientConnect_mutates_scheme toy sample_req None sample_world
              (url.mkURL "https" "" "example.com" "/chat" "" ""))
      as (_ & _ & _ & _ & _ & Hok_url & _).
    + reflexivity.
    + intros l Hl. injection Hl as <-. exists sample_headers. reflexivity.
    + vm_compute. reflexivity.
    + vm_compute. reflexivity.
    + intros resp lr Hr Hlr. vm_compute in Hr. injection Hr as <-.
      injection Hlr as <-. discriminate.
    + split; [exact Hfail_url|]. split; [exact Hfail_hdr|exact Hok_url].
Defined.

(** ** The upgrade detector: token lists *)



















Lemma IsWebSocketUpgrade_run {Net} (req : Request.t) (σ : world Net) :
  IsWebSocketUpgrade req σ
  = (Ok (gorilla.IsWebSocketUpgrade (default ∅ (deref σ (Request.Header req)))), σ).
Proof. reflexivity. Qed.




(** ** The relay *)

Lemma copy_turn_cases {E} (dst src : ReadWriter E) :
  (∃ chunk rest, incoming src = chunk :: rest
     ∧ (copy_turn dst src).1.2 = mkRW rest (closing src) (written src) (wfail src)
     ∧ closing (copy_turn dst src).1.1 = closing dst
     ∧ incoming (copy_turn dst src).1.1 = incoming dst
     ∧ (copy_turn dst src).2 ≠ Blocked
     ∧ (wfail dst = None →
        (copy_turn dst src).2 = Continue
        ∧ wfail (copy_turn dst src).1.1 = None
        ∧ written (copy_turn dst src).1.1 = written dst ++ chunk))
  ∨ (incoming src = []
     ∧ (copy_turn dst src).1 = (dst, src)
     ∧ (copy_turn dst src).2 ≠ Continue
     ∧ ((copy_turn dst src).2 = Blocked ↔ closing src = Never)).
Proof.
  unfold copy_turn. destruct (incoming src) as [|chunk rest] eqn:Hin.
  - right. split; [reflexivity|].
    destruct (closing src); simpl; repeat split; try discriminate; intros; congruence.
  - left. exists chunk, rest. split; [reflexivity|].
    unfold Write_. destruct (wfail dst) as [[[|n] e]|]; simpl;
      repeat split; try discriminate; intros; congruence.
Qed.

Lemma Stream_inv_init {E} (a b : ReadWriter E) (lg : list (string * E)) :
  Stream_inv a b (Stream a b lg).
Proof.
  constructor; simpl; try (intros; discriminate); auto.
  intros [?|?]; discriminate.
Qed.

Ltac inv_tac :=
  constructor; simpl in *;
  intuition (try discriminate; try congruence; try lia; auto).

Lemma Stream_inv_caller {E} (a b : ReadWriter E) (c c' : config E) :
  Stream_inv a b c → caller_step c = Some c' → Stream_inv a b c'.
Proof.
  intros [Hsig H1 H2 H3 Hcl Hc Hb] Hstep. unfold caller_step in Hstep.
  destruct c as [m g1 g2 n ca cb lg]. simpl in *.
  destruct m; try discriminate.
  - injection Hstep as <-. destruct (H1 eq_refl) as [-> ->]. inv_tac.
  - injection Hstep as <-. destruct (H2 eq_refl) as [Hs ->]. inv_tac.
  - destruct n as [|n]; [discriminate|]. injection Hstep as <-. inv_tac.
Qed.

Lemma Stream_inv_toConn {E} (a b : ReadWriter E) (c c' : config E) :
  Stream_inv a b c → toConn_step c = Some c' → Stream_inv a b c'.
Proof.
  intros [Hsig H1 H2 H3 Hcl Hc Hb] Hstep. unfold toConn_step in Hstep.
  destruct c as [m g1 g2 n ca cb lg]. simpl in *.
  destruct g1 as [| |[e|]| |]; try discriminate.
  - destruct (copy_turn_cases ca cb) as
      [(chunk & rest & Hin & Hsrc & Hdcl & Hdin & Hnb & Hw)|(Hin & Hsame & Hnc & Hbl)].
    + destruct (copy_turn ca cb) as [[dst src] out]. simpl in *. subst src.
      assert (Hc' : wfail a = None →
                    wfail dst = None
                    ∧ written dst ++ concat rest = written a ++ concat (incoming b)).
      { intros Ha. destruct (Hc Ha) as [Hwf Hdata]. destruct (Hw Hwf) as (_ & Hwf' & Hwr).
        split; [exact Hwf'|]. rewrite Hwr, <- Hdata, Hin. simpl. rewrite app_assoc.
        reflexivity. }
      assert (Hb' : wfail b = None →
                    wfail cb = None
                    ∧ written cb ++ concat (incoming dst) = written b ++ concat (incoming a)).
      { intros Hbn. destruct (Hb Hbn) as [Hwf Hdata]. split; [exact Hwf|].
        rewrite Hdin. exact Hdata. }
      destruct out; try discriminate; injection Hstep as <-; inv_tac.
    + destruct (copy_turn ca cb) as [[dst src] out]. simpl in *.
      injection Hsame as -> ->.
      destruct out; try discriminate; try (exfalso; apply Hnc; reflexivity).
      injection Hstep as <-. inv_tac.
  - injection Hstep as <-. inv_tac.
  - injection Hstep as <-. inv_tac.
  - unfold proxyDone_cap in Hstep. destruct (n <? 2)%nat; [|discriminate].
    injection Hstep as <-. inv_tac.
Qed.

Lemma Stream_inv_toBackend {E} (a b : ReadWriter E) (c c' : config E) :
  Stream_inv a b c → toBackend_step c = Some c' → Stream_inv a b c'.
Proof.
  intros [Hsig H1 H2 H3 Hcl Hc Hb] Hstep. unfold toBackend_step in Hstep.
  destruct c as [m g1 g2 n ca cb lg]. simpl in *.
  destruct g2 as [| |[e|]| |]; try discriminate.
  - destruct (copy_turn_cases cb ca) as
      [(chunk & rest & Hin & Hsrc & Hdcl & Hdin & Hnb & Hw)|(Hin & Hsame & Hnc & Hbl)].
    + destruct (copy_turn cb ca) as [[dst src] out]. simpl in *. subst src.
      assert (Hc' : wfail a = None →
                    wfail ca = None
                    ∧ written ca ++ concat (incoming dst) = written a ++ concat (incoming b)).
      { intros Ha. destruct (Hc Ha) as [Hwf Hdata]. split; [exact Hwf|].
        rewrite Hdin. exact Hdata. }
      assert (Hb' : wfail b = None →
                    wfail dst = None
                    ∧ written dst ++ concat rest = written b ++ concat (incoming a)).
      { intros Hbn. destruct (Hb Hbn) as [Hwf Hdata]. destruct (Hw Hwf) as (_ & Hwf' & Hwr).
        split; [exact Hwf'|]. rewrite Hwr, <- Hdata, Hin. simpl. rewrite app_assoc.
        reflexivity. }
      destruct out; try discriminate; injection Hstep as <-; inv_tac.
    + destruct (copy_turn cb ca) as [[dst src] out]. simpl in *.
      injection Hsame as -> ->.
      destruct out; try discriminate; try (exfalso; apply Hnc; reflexivity).
      injection Hstep as <-. inv_tac.
  - injection Hstep as <-. inv_tac.
  - injection Hstep as <-. inv_tac.
  - unfold proxyDone_cap in Hstep. destruct (n <? 2)%nat; [|discriminate].
    injection Hstep as <-. inv_tac.
Qed.

Lemma Stream_inv_step {E} (a b : ReadWriter E) (c c' : config E) :
  Stream_inv a b c → step c c' → Stream_inv a b c'.
Proof.
  intros Hinv [[| |] Hstep]; simpl in Hstep.
  - exact (Stream_inv_caller a b c c' Hinv Hstep).
  - exact (Stream_inv_toConn a b c c' Hinv Hstep).
  - exact (Stream_inv_toBackend a b c c' Hinv Hstep).
Qed.








(** Whatever the schedule, [run] follows the step relation. *)
Lemma run_reachable {E} (sched : list tid) (c : config E) : reachable c (run sched c).
Proof.
  unfold reachable. revert c. induction sched as [|t sched IH]; intros c; simpl.
  - apply rtc_refl.
  - destruct (Stream_step t c) as [c'|] eqn:Hstep; simpl; [|apply IH].
    eapply rtc_l; [exact (step_of c c' t Hstep)|apply IH].
Qed.


(** Without a signal there is no return: when neither stream ever ends
    or delivers anything, the caller stays at its receive. *)
Example Stream_waits_for_a_signal :
  let c := run [Caller; Caller] (Stream (mkRW [] (@Never unit) [] None) (mkRW [] Never [] None) []) in
  caller c = MRecv ∧ stuck c.
Proof. split; [reflexivity|]. intros [| |]; reflexivity. Qed.


(** * Further properties *)

(** ** The scheme and the outbound headers, further *)

Lemma outbound_sanitized {Net} (req : Request.t) (σ : world Net) :
  outbound req σ = sanitized (default ∅ (deref σ (Request.Header req))) (Request.Host req).
Proof.
  unfold outbound. rewrite websocketHeaders_run. simpl. rewrite lookup_insert_eq. reflexivity.
Qed.

(** X1. [ChangeRequestScheme] never returns [https], [http] or the
    empty scheme, and translating an already translated URL changes
    nothing. *)
Theorem ChangeRequestScheme_fixpoint (reqURL : url.URL) :
  ChangeRequestScheme reqURL ≠ "https"%string
  ∧ ChangeRequestScheme reqURL ≠ "http"%string
  ∧ ChangeRequestScheme reqURL ≠ ""%string
  ∧ ChangeRequestScheme (url.set_Scheme reqURL (ChangeRequestScheme reqURL))
    = ChangeRequestScheme reqURL.
Proof.
  unfold ChangeRequestScheme. destruct reqURL as [s o h p q f]. simpl.
  destruct (String.eqb s "https") eqn:E1; [repeat split; discriminate|].
  destruct (String.eqb s "http") eqn:E2; [repeat split; discriminate|].
  destruct (String.eqb s "") eqn:E3; [repeat split; discriminate|].
  rewrite E1, E2, E3.
  apply String.eqb_neq in E1, E2, E3. repeat split; assumption.
Qed.

Lemma sanitized_twice (h : http.Header) (host1 host2 : string) :
  sanitized (sanitized h host1) host2 = sanitized h host2.
Proof.
  apply map_eq. intros k.
  destruct (decide (k = "Host"%string)) as [->|Hh]; [rewrite !sanitized_Host; reflexivity|].
  destruct (in_dec String.string_dec k stripWebsocketHeaders) as [Hin|Hin].
  - rewrite !sanitized_strip by exact Hin. reflexivity.
  - rewrite !sanitized_other by assumption. reflexivity.
Qed.

(** X2. Sanitising the outbound headers again, for another host, gives
    what sanitising the inbound headers for that host gives. *)
Theorem websocketHeaders_again {Net} (req req2 : Request.t) (σ σ1 : world Net)
    (r : option loc) :
  websocketHeaders req σ = (Ok r, σ1) →
  Request.Header req2 = r →
  outbound req2 σ1
  = outbound (Request.mk (Request.Method req) (Request.URL req) (Request.Header req)
                         (Request.Host req2)) σ.
Proof.
  intros Hrun Hr. rewrite websocketHeaders_run in Hrun. injection Hrun as <- <-.
  rewrite !outbound_sanitized, Hr. simpl. rewrite lookup_insert_eq. simpl.
  apply sanitized_twice.
Qed.

Lemma websocketHeaders_again_witness :
  outbound (Request.mk "GET" 1%positive (Some 2%positive) "other.example")
           (snd (websocketHeaders sample_req sample_world))
  = outbound (Request.mk "GET" 1%positive (Some 1%positive) "other.example") sample_world.
Proof.
  apply (websocketHeaders_again sample_req
           (Request.mk "GET" 1%positive (Some 2%positive) "other.example")
           sample_world (snd (websocketHeaders sample_req sample_world)) (Some 2%positive)).
  - vm_compute. reflexivity.
  - reflexivity.
Defined.

Lemma sanitized_dom (h : http.Header) (host : string) :
  dom (sanitized h host)
  = {["Host"%string]} ∪ (dom h ∖ list_to_set stripWebsocketHeaders).
Proof.
  apply set_eq. intros k.
  rewrite elem_of_union, elem_of_singleton, elem_of_difference, !elem_of_dom,
    elem_of_list_to_set, list_elem_of_In.
  destruct (decide (k = "Host"%string)) as [->|Hh].
  - rewrite sanitized_Host. split; [auto|eauto].
  - destruct (in_dec String.string_dec k stripWebsocketHeaders) as [Hin|Hin].
    + rewrite sanitized_strip by exact Hin. split.
      * intros [v Hv]. discriminate.
      * intros [?|[_ ?]]; tauto.
    + rewrite sanitized_other by assumption. split; [auto|].
      intros [?|[? _]]; tauto.
Qed.

(** X3. The keys of the outbound map are [Host] and the inbound keys
    that are none of the five handshake names; the map is never empty and
    has at most one entry more than the inbound map; for a nil or empty
    inbound map it is [Host] alone. *)
Theorem websocketHeaders_keys {Net} (req : Request.t) (σ : world Net) :
  let h := default ∅ (deref σ (Request.Header req)) in
  dom (outbound req σ) = {["Host"%string]} ∪ (dom h ∖ list_to_set stripWebsocketHeaders)
  ∧ (size (outbound req σ) ≤ S (size h))%nat
  ∧ (1 ≤ size (outbound req σ))%nat
  ∧ (h = ∅ → outbound req σ = {["Host"%string := [Request.Host req]]}).
Proof.
  intros h. rewrite outbound_sanitized. fold h. clearbody h.
  split; [apply sanitized_dom|]. split; [|split].
  - rewrite <- !size_dom, sanitized_dom.
    transitivity (size ({["Host"%string]} ∪ dom h : gset string)).
    + apply subseteq_size, union_mono_l, subseteq_difference_l. reflexivity.
    + rewrite size_union_alt, size_singleton.
      assert (size (dom h ∖ {["Host"%string]}) ≤ size (dom h))%nat
        by (apply subseteq_size, subseteq_difference_l; reflexivity).
      lia.
  - rewrite <- size_dom, sanitized_dom.
    transitivity (size ({["Host"%string]} : gset string)); [rewrite size_singleton; lia|].
    apply subseteq_size, union_subseteq_l.
  - intros ->. apply map_eq. intros k.
    destruct (decide (k = "Host"%string)) as [->|Hh].
    + rewrite sanitized_Host, lookup_singleton_eq. reflexivity.
    + rewrite (sanitized_absent ∅ _ k (lookup_empty k) Hh).
      rewrite lookup_singleton_ne by done. reflexivity.
Qed.

Lemma websocketHeaders_keys_witness :
  outbound (Request.mk "GET" 1%positive None "example.com") sample_world
  = {["Host"%string := ["example.com"%string]]}.
Proof.
  apply (websocketHeaders_keys (Request.mk "GET" 1%positive None "example.com") sample_world).
  reflexivity.
Defined.

(** X4. Read through [Header.Get], which canonicalises the name it is
    given, the outbound map has none of the five handshake headers and
    its [Host] is [req.Host], in whatever casing the name is asked for and
    whatever the keys of the inbound map. *)
Theorem websocketHeaders_through_Get {Net} (req : Request.t) (σ : world Net) (k : string) :
  (excluded_fold k = true → http.Get (outbound req σ) k = ""%string)
  ∧ (gorilla.equalASCIIFold k "Host" = true →
     http.Get (outbound req σ) k = Request.Host req).
Proof.
  rewrite outbound_sanitized. split.
  - intros Hex. unfold excluded_fold in Hex. apply existsb_exists in Hex.
    destruct Hex as (s & Hs & Hfold).
    assert (Hsv : textproto.all_valid s = true ∧ textproto.CanonicalMIMEHeaderKey s = s).
    { unfold stripWebsocketHeaders in Hs. simpl in Hs.
      destruct Hs as [<-|[<-|[<-|[<-|[<-|[]]]]]]; split; reflexivity. }
    destruct Hsv as [Hv Hcs].
    unfold http.Get. rewrite (CanonicalMIMEHeaderKey_fold k s Hv Hfold), Hcs.
    rewrite sanitized_strip by exact Hs. reflexivity.
  - intros Hfold. unfold http.Get.
    rewrite (CanonicalMIMEHeaderKey_fold k "Host" eq_refl Hfold).
    change (textproto.CanonicalMIMEHeaderKey "Host") with "Host"%string.
    rewrite sanitized_Host. reflexivity.
Qed.

Lemma websocketHeaders_through_Get_witness :
  http.Get (outbound sample_req lowercase_world) "UPGRADE" = ""%string
  ∧ http.Get (outbound sample_req lowercase_world) "host" = "example.com"%string.
Proof.
  split.
  - apply (websocketHeaders_through_Get sample_req lowercase_world "UPGRADE"). reflexivity.
  - apply (websocketHeaders_through_Get sample_req lowercase_world "host"). reflexivity.
Defined.

(** X5. An inbound entry stored under a key that is not in canonical
    format is always copied to the outbound map, whatever header it
    names. *)
Theorem websocketHeaders_noncanonical_pass {Net} (req : Request.t) (σ : world Net)
    (k : string) (v : list string) :
  default ∅ (deref σ (Request.Header req)) !! k = Some v →
  textproto.CanonicalMIMEHeaderKey k ≠ k →
  outbound req σ !! k = Some v.
Proof.
  intros Hk Hnc. rewrite outbound_sanitized.
  assert (Hns : ¬ In k stripWebsocketHeaders).
  { unfold stripWebsocketHeaders. simpl.
    intros [<-|[<-|[<-|[<-|[<-|[]]]]]]; apply Hnc; reflexivity. }
  assert (Hh : k ≠ "Host"%string) by (intros ->; apply Hnc; reflexivity).
  rewrite sanitized_other by assumption. exact Hk.
Qed.

Lemma websocketHeaders_noncanonical_pass_witness :
  outbound sample_req lowercase_world !! "connection"%string = Some ["Upgrade"%string].
Proof.
  apply (websocketHeaders_noncanonical_pass sample_req lowercase_world "connection").
  - reflexivity.
  - discriminate.
Defined.

(** X6. Two calls of [websocketHeaders] on the same request return two
    different maps with the same contents, neither of which is the
    request's own map, and leave that one as it was. *)
Theorem websocketHeaders_fresh_each_time {Net} (req : Request.t) (σ : world Net) :
  (∀ l, Request.Header req = Some l → is_Some (headers σ !! l)) →
  ∃ (l1 l2 : loc) (σ1 σ2 : world Net),
    websocketHeaders req σ = (Ok (Some l1), σ1)
    ∧ websocketHeaders req σ1 = (Ok (Some l2), σ2)
    ∧ l1 ≠ l2
    ∧ Request.Header req ≠ Some l1 ∧ Request.Header req ≠ Some l2
    ∧ is_Some (headers σ2 !! l1)
    ∧ headers σ2 !! l2 = headers σ2 !! l1
    ∧ deref σ2 (Request.Header req) = deref σ (Request.Header req).
Proof.
  intros Hwf.
  set (h := default ∅ (deref σ (Request.Header req))).
  set (l1 := fresh (dom (headers σ))).
  set (σ1 := set_headers <[l1 := sanitized h (Request.Host req)]> σ).
  set (l2 := fresh (dom (headers σ1))).
  assert (H1 : headers σ !! l1 = None) by apply fresh_header.
  assert (H2 : headers σ1 !! l2 = None) by apply fresh_header.
  assert (Hne : l1 ≠ l2).
  { intros Heq. rewrite <- Heq in H2. unfold σ1 in H2. simpl in H2.
    rewrite lookup_insert_eq in H2. discriminate. }
  assert (Hr1 : Request.Header req ≠ Some l1).
  { intros Heq. destruct (Hwf l1 Heq) as [x Hx]. congruence. }
  assert (Hd1 : deref σ1 (Request.Header req) = deref σ (Request.Header req)).
  { destruct (Request.Header req) as [l0|] eqn:Hh; [|reflexivity]. simpl.
    apply lookup_insert_ne. intros ->. apply Hr1. reflexivity. }
  assert (Hr2 : Request.Header req ≠ Some l2).
  { intros Heq. destruct (Hwf l2 Heq) as [x Hx].
    rewrite Heq in Hd1. cbn [deref] in Hd1. rewrite H2, Hx in Hd1. discriminate. }
  exists l1, l2, σ1,
    (set_headers <[l2 := sanitized (default ∅ (deref σ1 (Request.Header req)))
                            (Request.Host req)]> σ1).
  split; [apply websocketHeaders_run|]. split; [apply websocketHeaders_run|].
  split; [exact Hne|]. split; [exact Hr1|]. split; [exact Hr2|].
  simpl. rewrite lookup_insert_eq, (lookup_insert_ne _ l2 l1) by done.
  rewrite lookup_insert_eq. split; [eauto|]. split.
  - rewrite Hd1. reflexivity.
  - destruct (Request.Header req) as [l0|] eqn:Hh; [|reflexivity]. simpl.
    rewrite (lookup_insert_ne _ l2 l0) by (intros ->; apply Hr2; reflexivity).
    rewrite (lookup_insert_ne _ l1 l0) by (intros ->; apply Hr1; reflexivity).
    reflexivity.
Qed.

Lemma websocketHeaders_fresh_each_time_witness :
  ∃ (l1 l2 : loc) (σ1 σ2 : world nat),
    websocketHeaders sample_req sample_world = (Ok (Some l1), σ1)
    ∧ websocketHeaders sample_req σ1 = (Ok (Some l2), σ2)
    ∧ l1 ≠ l2.
Proof.
  destruct (websocketHeaders_fresh_each_time sample_req sample_world)
    as (l1 & l2 & σ1 & σ2 & Ha & Hb & Hne & _).
  - intros l Hl. injection Hl as <-. exists sample_headers. reflexivity.
  - exists l1, l2, σ1, σ2. auto.
Defined.

(** X7. A request that carries the outbound headers is not an upgrade
    request for [IsWebSocketUpgrade], and its nonce is empty for
    [generateAcceptKey]: the handshake of the client is not forwarded. *)
Theorem websocketHeaders_not_an_upgrade {Net} (req req2 : Request.t) (σ σ1 : world Net)
    (r : option loc) :
  websocketHeaders req σ = (Ok r, σ1) →
  Request.Header req2 = r →
  IsWebSocketUpgrade req2 σ1 = (Ok false, σ1)
  ∧ generateAcceptKey req2 σ1 = (Ok (accept_token ""), σ1).
Proof.
  intros Hrun Hr. rewrite websocketHeaders_run in Hrun. injection Hrun as <- <-.
  rewrite IsWebSocketUpgrade_run, generateAcceptKey_run. unfold nonce_of.
  rewrite Hr. simpl. rewrite lookup_insert_eq. simpl. split.
  - unfold gorilla.IsWebSocketUpgrade, gorilla.tokenListContainsValue.
    rewrite (sanitized_strip _ _ "Connection"%string) by (simpl; auto). reflexivity.
  - unfold http.Get. canon.
    rewrite (sanitized_strip _ _ "Sec-Websocket-Key"%string) by (simpl; auto). reflexivity.
Qed.

Lemma websocketHeaders_not_an_upgrade_witness :
  IsWebSocketUpgrade sample_req sample_world = (Ok true, sample_world)
  ∧ fst (IsWebSocketUpgrade (Request.mk "GET" 1%positive (Some 2%positive) "example.com")
                            (snd (websocketHeaders sample_req sample_world)))
    = Ok false.
Proof.
  split; [vm_compute; reflexivity|].
  destruct (websocketHeaders_not_an_upgrade sample_req
              (Request.mk "GET" 1%positive (Some 2%positive) "example.com")
              sample_world (snd (websocketHeaders sample_req sample_world))
              (Some 2%positive)) as [Hup _].
  - vm_compute. reflexivity.
  - reflexivity.
  - rewrite Hup. reflexivity.
Defined.

(** X8. When the request has a [Sec-Websocket-Key] entry,
    [generateAcceptKey] hashes its first value only, and the empty string
    when the entry has no value. *)
Theorem generateAcceptKey_first_value {Net} (req : Request.t) (σ : world Net)
    (vs : list string) :
  default ∅ (deref σ (Request.Header req)) !! "Sec-Websocket-Key"%string = Some vs →
  generateAcceptKey req σ
  = (Ok (sha1Base64 (hd ""%string vs +:+ "258EAFA5-E914-47DA-95CA-C5AB0DC85B11")), σ).
Proof.
  intros Hvs. rewrite generateAcceptKey_run. unfold accept_token, nonce_of, http.Get. canon.
  rewrite Hvs, sha1Base64_SHA1. destruct vs; reflexivity.
Qed.

(** ** The shape of the accept key *)

Lemma enc_alphabet (v : Z) : base64_alphabet (base64.enc v).
Proof.
  unfold base64_alphabet, base64.enc. apply nth_In.
  change (length (list_ascii_of_string base64.encodeStd)) with 64%nat.
  change 63 with (Z.ones 6). rewrite Z.land_ones by lia.
  pose proof (Z.mod_pos_bound v (2 ^ 6) ltac:(lia)). lia.
Qed.

(** X9. Whatever its input, [sha1Base64] returns 28 characters: 27 of
    the base64 alphabet followed by one [=]. *)
Theorem sha1Base64_shape (str : string) :
  String.length (sha1Base64 str) = 28%nat
  ∧ String.get 27 (sha1Base64 str) = Some "="%char
  ∧ (∀ i c, (i < 27)%nat → String.get i (sha1Base64 str) = Some c → base64_alphabet c).
Proof.
  rewrite sha1Base64_SHA1. unfold SHA1, sha1.putUint32.
  set (s := fst (sha1.block _ _ _)). cbn [app base64.EncodeToString].
  split; [reflexivity|]. split; [reflexivity|].
  intros i c Hi.
  do 27 (destruct i as [|i]; [cbn [String.get]; intros [= <-]; apply enc_alphabet|]).
  lia.
Qed.

Lemma sha1Base64_shape_witness :
  base64_alphabet "s"%char.
Proof.
  destruct (sha1Base64_shape "dGhlIHNhbXBsZSBub25jZQ==258EAFA5-E914-47DA-95CA-C5AB0DC85B11")
    as (_ & _ & Halpha).
  apply (Halpha 0%nat "s"%char); [lia|]. vm_compute. reflexivity.
Defined.

(** ** The backend connector: agreement and panics *)

Lemma after_dial_success `{External} (req : Request.t) (conn : option Conn)
    (resp : Response.t) (lr : loc) (hr : http.Header) (σ2 : world Net) :
  Response.Header resp = Some lr →
  headers σ2 !! lr = Some hr →
  after_dial req (conn, Some resp, None) σ2
  = (Ok (conn, Some resp, None),
     set_headers
       <[lr := <["Sec-Websocket-Accept"%string := [accept_token (nonce_of σ2 req)]]> hr]> σ2).
Proof.
  intros Hresp Hlr. cbn [after_dial].
  erewrite bind_Ok by apply generateAcceptKey_run.
  rewrite Hresp. unfold Header_Set.
  erewrite bind_Ok by (apply write_Header_run; exact Hlr).
  unfold mret, M_ret, http.Set_. canon. reflexivity.
Qed.

(** X10. After a successful [ClientConnect], [NewResponseHeader] on the
    same request builds a new map whose [Sec-Websocket-Accept] is the
    value [ClientConnect] has set on the backend response, provided the
    response has a header map of its own. *)
Theorem accept_key_agreement `{External} (req : Request.t) (dialler : option Dialer)
    (σ σ2 : world Net) (u : url.URL) (conn : option Conn) (resp : Response.t)
    (lr : loc) (hr : http.Header) :
  urls σ !! Request.URL req = Some u →
  the_dial req dialler σ u = ((conn, Some resp, None), σ2) →
  Response.Header resp = Some lr →
  headers σ2 !! lr = Some hr →
  Request.Header req ≠ Some lr →
  ∃ (σ3 σ4 : world Net) (l : loc),
    ClientConnect req dialler σ = (Ok (conn, Some resp, None), σ3)
    ∧ NewResponseHeader req σ3 = (Ok (Some l), σ4)
    ∧ l ≠ lr
    ∧ http.Get (default ∅ (deref σ4 (Some l))) "Sec-Websocket-Accept"
      = http.Get (default ∅ (deref σ4 (Some lr))) "Sec-WebSocket-Accept".
Proof.
  intros Hu Hdial Hresp Hlr Hown.
  set (tok := accept_token (nonce_of σ2 req)).
  set (σ3 := set_headers <[lr := <["Sec-Websocket-Accept"%string := [tok]]> hr]> σ2).
  assert (Hn : nonce_of σ3 req = nonce_of σ2 req).
  { unfold nonce_of. destruct (Request.Header req) as [l0|] eqn:Hh; [|reflexivity].
    simpl. rewrite lookup_insert_ne by (intros ->; apply Hown; reflexivity). reflexivity. }
  set (l := fresh (dom (headers σ3))).
  assert (Hl : headers σ3 !! l = None) by apply fresh_header.
  assert (Hne : l ≠ lr).
  { intros Heq. rewrite Heq in Hl. unfold σ3 in Hl. simpl in Hl.
    rewrite lookup_insert_eq in Hl. discriminate. }
  exists σ3, (set_headers <[l := response_header (accept_token (nonce_of σ3 req))]> σ3), l.
  split; [|split; [apply NewResponseHeader_run|split; [exact Hne|]]].
  - rewrite (ClientConnect_unfold req dialler σ u Hu), Hdial. cbn [fst snd].
    apply (after_dial_success req conn resp lr hr σ2 Hresp Hlr).
  - simpl. rewrite lookup_insert_eq, lookup_insert_ne by done.
    rewrite lookup_insert_eq. simpl. rewrite Hn. fold tok.
    unfold http.Get, response_header. canon.
    rewrite lookup_insert_ne by done. rewrite !lookup_insert_eq. reflexivity.
Qed.

Lemma ClientConnect_nil_URL `{External} (req : Request.t) (dialler : option Dialer)
    (σ : world Net) :
  urls σ !! Request.URL req = None → ClientConnect req dialler σ = (Panic, σ).
Proof.
  intros Hu. unfold ClientConnect.
  erewrite bind_Panic; [reflexivity|]. unfold load_URL. rewrite Hu. reflexivity.
Qed.

(** X11. The external calls returning, [ClientConnect] panics in two
    cases only: the request has no URL object, in which case nothing is
    dialled, or the dial reports no error and yet gives no response, or a
    response without a header map. *)
Theorem ClientConnect_panics_iff `{External} (req : Request.t) (dialler : option Dialer)
    (σ : world Net) :
  fst (ClientConnect req dialler σ) = Panic
  ↔ urls σ !! Request.URL req = None
    ∨ ∃ u conn resp,
        urls σ !! Request.URL req = Some u
        ∧ fst (the_dial req dialler σ u) = (conn, resp, None)
        ∧ ∀ r, resp = Some r →
               deref (snd (the_dial req dialler σ u)) (Response.Header r) = None.
Proof.
  destruct (urls σ !! Request.URL req) as [u|] eqn:Hu.
  - rewrite (ClientConnect_unfold req dialler σ u Hu).
    destruct (the_dial req dialler σ u) as [[[conn resp] err] σ2] eqn:Hdial. cbn [fst snd].
    split.
    + intros Hp. right. exists u, conn, resp. split; [reflexivity|]. rewrite Hdial.
      destruct err as [e|]; [discriminate Hp|]. split; [reflexivity|]. cbn [snd].
      intros r ->. cbn [after_dial] in Hp.
      erewrite bind_Ok in Hp by apply generateAcceptKey_run.
      destruct (deref σ2 (Response.Header r)) as [hr|] eqn:Hd; [|reflexivity].
      destruct (Response.Header r) as [lr|] eqn:Hr; [|discriminate Hd].
      unfold Header_Set in Hp.
      erewrite bind_Ok in Hp by (apply write_Header_run; exact Hd).
      discriminate Hp.
    + intros [Hn|(u' & conn' & resp' & Hu' & Hd & Hnil)]; [discriminate Hn|].
      injection Hu' as <-. rewrite Hdial in Hd, Hnil. cbn [fst snd] in Hd, Hnil.
      injection Hd as <- <- ->. cbn [after_dial].
      erewrite bind_Ok by apply generateAcceptKey_run.
      destruct resp as [r|]; [|reflexivity].
      specialize (Hnil r eq_refl). unfold Header_Set, write_Header, mbind, M_bind.
      destruct (Response.Header r) as [lr|]; [|reflexivity].
      cbn [deref] in *. rewrite Hnil. reflexivity.
  - rewrite (ClientConnect_nil_URL req dialler σ Hu). split; [auto|reflexivity].
Qed.

(** ** The relay, further *)

Lemma copy_turn_nil {E} (dst src : ReadWriter E) :
  incoming src = [] →
  copy_turn dst src
  = (dst, src, match closing src with
               | EOF => Return_ None
               | ReadError er => Return_ (Some er)
               | Never => Blocked
               end).
Proof. intros Hin. unfold copy_turn. rewrite Hin. destruct (closing src); reflexivity. Qed.

Lemma Stream_inv2_init {E} (a b : ReadWriter E) (lg : list (string * E)) :
  Stream_inv2 a b lg (Stream a b lg).
Proof.
  constructor; simpl; try tauto; try (intros; discriminate); try lia; auto.
  exists []. rewrite app_nil_r. reflexivity.
Qed.

Ltac inv2_tac :=
  constructor; simpl in *;
  try (intuition (try discriminate; try congruence; try lia; eauto); fail).

Lemma Stream_inv2_caller {E} (a b : ReadWriter E) (lg : list (string * E))
    (c c' : config E) :
  Stream_inv a b c → Stream_inv2 a b lg c → caller_step c = Some c' → Stream_inv2 a b lg c'.
Proof.
  intros [_ H1 H2 _ _ _ _] [Hp Hl Hcc Hcb Hcl Hdc Hdb] Hstep. unfold caller_step in Hstep.
  destruct c as [m g1 g2 n ca cb lgc]. simpl in *.
  destruct m; try discriminate.
  - injection Hstep as <-. destruct (H1 eq_refl) as [-> ->]. inv2_tac.
  - injection Hstep as <-. destruct (H2 eq_refl) as [_ ->]. inv2_tac.
  - destruct n as [|n]; [discriminate|]. injection Hstep as <-. inv2_tac.
Qed.

Lemma Stream_inv2_toConn {E} (a b : ReadWriter E) (lg : list (string * E))
    (c c' : config E) :
  Stream_inv a b c → Stream_inv2 a b lg c → toConn_step c = Some c' → Stream_inv2 a b lg c'.
Proof.
  intros [_ _ _ _ [Hca Hcb'] Hwa Hwb] [Hp Hl Hcc Hcb Hcl Hdc Hdb] Hstep.
  unfold toConn_step in Hstep.
  destruct c as [m g1 g2 n ca cb lgc]. simpl in *.
  destruct g1 as [| |[e|]| |]; try discriminate.
  - destruct (copy_turn_cases ca cb) as
      [(chunk & rest & Hin & Hsrc & Hdcl & Hdin & Hnb & Hw)|(Hin & Hsame & Hnc & Hbl)].
    + destruct (copy_turn ca cb) as [[dst src] out]. simpl in *. subst src.
      assert (Hcont : wfail a = None → out = Continue).
      { intros Ha. destruct (Hwa Ha) as [Hwf _]. destruct (Hw Hwf) as [? _]. assumption. }
      destruct out; try discriminate; injection Hstep as <-; constructor; simpl in *;
        try (rewrite Hdin);
        try (intuition (try discriminate; try congruence; try lia; eauto); fail).
    + rewrite (copy_turn_nil ca cb Hin) in Hstep.
      destruct (closing cb) as [|er|] eqn:Hclose; try discriminate;
        injection Hstep as <-; constructor; simpl in *;
        try (intuition (try discriminate; try congruence; try lia; eauto); fail).
  - injection Hstep as <-. constructor; simpl in *;
      try (intuition (try discriminate; try congruence; try lia; eauto); fail).
    + destruct Hp as [extra Hp]. exists (extra ++ [("conn to backendConn copy: %v"%string, e)]).
      rewrite Hp, app_assoc. reflexivity.
    + rewrite length_app. simpl. lia.
    + intros Ha Hb Hcla Hclb. exfalso. exact (Hcc Ha Hclb e eq_refl).
  - injection Hstep as <-. inv2_tac.
  - unfold proxyDone_cap in Hstep. destruct (n <? 2)%nat; [|discriminate].
    injection Hstep as <-. inv2_tac.
Qed.

Lemma Stream_inv2_toBackend {E} (a b : ReadWriter E) (lg : list (string * E))
    (c c' : config E) :
  Stream_inv a b c → Stream_inv2 a b lg c → toBackend_step c = Some c' →
  Stream_inv2 a b lg c'.
Proof.
  intros [_ _ _ _ [Hca Hcb'] Hwa Hwb] [Hp Hl Hcc Hcb Hcl Hdc Hdb] Hstep.
  unfold toBackend_step in Hstep.
  destruct c as [m g1 g2 n ca cb lgc]. simpl in *.
  destruct g2 as [| |[e|]| |]; try discriminate.
  - destruct (copy_turn_cases cb ca) as
      [(chunk & rest & Hin & Hsrc & Hdcl & Hdin & Hnb & Hw)|(Hin & Hsame & Hnc & Hbl)].
    + destruct (copy_turn cb ca) as [[dst src] out]. simpl in *. subst src.
      assert (Hcont : wfail b = None → out = Continue).
      { intros Hb. destruct (Hwb Hb) as [Hwf _]. destruct (Hw Hwf) as [? _]. assumption. }
      destruct out; try discriminate; injection Hstep as <-; constructor; simpl in *;
        try (rewrite Hdin);
        try (intuition (try discriminate; try congruence; try lia; eauto); fail).
    + rewrite (copy_turn_nil cb ca Hin) in Hstep.
      destruct (closing ca) as [|er|] eqn:Hclose; try discriminate;
        injection Hstep as <-; constructor; simpl in *;
        try (intuition (try discriminate; try congruence; try lia; eauto); fail).
  - injection Hstep as <-. constructor; simpl in *;
      try (intuition (try discriminate; try congruence; try lia; eauto); fail).
    + destruct Hp as [extra Hp]. exists (extra ++ [("backendConn to conn copy: %v"%string, e)]).
      rewrite Hp, app_assoc. reflexivity.
    + rewrite length_app. simpl. lia.
    + intros Ha Hb Hcla Hclb. exfalso. exact (Hcb Hb Hcla e eq_refl).
  - injection Hstep as <-. inv2_tac.
  - unfold proxyDone_cap in Hstep. destruct (n <? 2)%nat; [|discriminate].
    injection Hstep as <-. inv2_tac.
Qed.

Lemma Stream_invs_reachable {E} (a b : ReadWriter E) (lg : list (string * E)) (c : config E) :
  reachable (Stream a b lg) c → Stream_inv a b c ∧ Stream_inv2 a b lg c.
Proof.
  unfold reachable. intros Hr.
  refine (rtc_ind_r (R := step) (λ c0, Stream_inv a b c0 ∧ Stream_inv2 a b lg c0)
            (Stream a b lg) (conj (Stream_inv_init a b lg) (Stream_inv2_init a b lg)) _ c Hr).
  intros c1 c2 _ Hstep [Hi1 Hi2]. split; [exact (Stream_inv_step a b c1 c2 Hi1 Hstep)|].
  destruct Hstep as [[| |] Hstep]; simpl in Hstep.
  - exact (Stream_inv2_caller a b lg c1 c2 Hi1 Hi2 Hstep).
  - exact (Stream_inv2_toConn a b lg c1 c2 Hi1 Hi2 Hstep).
  - exact (Stream_inv2_toBackend a b lg c1 c2 Hi1 Hi2 Hstep).
Qed.

(** X12. Along every run of [Stream] the log keeps what it held and
    grows by two entries at most; it does not grow at all when no read
    and no write can fail. *)
Theorem Stream_log_bounded {E} (a b : ReadWriter E) (lg : list (string * E)) (c : config E) :
  reachable (Stream a b lg) c →
  ∃ extra, log c = lg ++ extra ∧ (length extra ≤ 2)%nat
           ∧ (wfail a = None → wfail b = None → reads_cleanly a → reads_cleanly b →
              extra = []).
Proof.
  intros Hr. destruct (Stream_invs_reachable a b lg c Hr) as [_ Hi].
  destruct (inv2_prefix a b lg c Hi) as [extra Hextra]. exists extra.
  split; [exact Hextra|]. split.
  - pose proof (inv2_length a b lg c Hi) as Hlen. rewrite Hextra, length_app in Hlen.
    assert (logged (toConn c) ≤ 1 ∧ logged (toBackend c) ≤ 1)%nat
      by (split; [destruct (toConn c)|destruct (toBackend c)]; simpl; lia).
    lia.
  - intros Ha Hb Hca Hcb. pose proof (inv2_clean_log a b lg c Hi Ha Hb Hca Hcb) as Hsame.
    rewrite Hextra in Hsame. rewrite <- (app_nil_r lg) in Hsame at 2.
    apply app_inv_head in Hsame. exact Hsame.
Qed.

(** X13. When neither stream ever ends and no write fails, [Stream]
    never returns: no copy ever signals and nothing is logged. *)
Theorem Stream_never_returns {E} (a b : ReadWriter E) (lg : list (string * E))
    (c : config E) :
  wfail a = None → wfail b = None → closing a = Never → closing b = Never →
  reachable (Stream a b lg) c →
  caller c ≠ MRet ∧ toConn c ≠ GDone ∧ toBackend c ≠ GDone ∧ log c = lg.
Proof.
  intros Ha Hb Hca Hcb Hr. destruct (Stream_invs_reachable a b lg c Hr) as [Hi1 Hi2].
  assert (Hn1 : ¬ past_copy (toConn c)).
  { intros Hp. destruct (inv2_done_conn a b lg c Hi2 Ha Hp) as [_ Hne]. tauto. }
  assert (Hn2 : ¬ past_copy (toBackend c)).
  { intros Hp. destruct (inv2_done_backend a b lg c Hi2 Hb Hp) as [_ Hne]. tauto. }
  assert (Hd1 : toConn c ≠ GDone) by (intros Hd; rewrite Hd in Hn1; apply Hn1; exact I).
  assert (Hd2 : toBackend c ≠ GDone) by (intros Hd; rewrite Hd in Hn2; apply Hn2; exact I).
  split; [|split; [exact Hd1|split; [exact Hd2|]]].
  - intros Hm. pose proof (inv_signals a b c Hi1) as Hsig. rewrite Hm in Hsig.
    destruct (toConn c), (toBackend c); simpl in Hsig; try lia; tauto.
  - apply (inv2_clean_log a b lg c Hi2 Ha Hb); intros e He; congruence.
Qed.

(** X14. A copy that has signalled towards a stream whose writes do
    not fail has exhausted its source and written all its bytes, in
    order, after what the destination already held. *)
Theorem Stream_signalled_delivered {E} (a b : ReadWriter E) (lg : list (string * E))
    (c : config E) :
  reachable (Stream a b lg) c →
  (wfail b = None → toBackend c = GDone →
     incoming (conn c) = []
     ∧ written (backendConn c) = written b ++ concat (incoming a))
  ∧ (wfail a = None → toConn c = GDone →
     incoming (backendConn c) = []
     ∧ written (conn c) = written a ++ concat (incoming b)).
Proof.
  intros Hr. destruct (Stream_invs_reachable a b lg c Hr) as [Hi1 Hi2]. split.
  - intros Hb Hd. assert (Hp : past_copy (toBackend c)) by (rewrite Hd; exact I).
    destruct (inv2_done_backend a b lg c Hi2 Hb Hp) as [Hin _].
    destruct (inv_to_backend a b c Hi1 Hb) as [_ Hdata].
    rewrite Hin in Hdata. simpl in Hdata. rewrite app_nil_r in Hdata. auto.
  - intros Ha Hd. assert (Hp : past_copy (toConn c)) by (rewrite Hd; exact I).
    destruct (inv2_done_conn a b lg c Hi2 Ha Hp) as [Hin _].
    destruct (inv_to_conn a b c Hi1 Ha) as [_ Hdata].
    rewrite Hin in Hdata. simpl in Hdata. rewrite app_nil_r in Hdata. auto.
Qed.



Lemma Stream_log_bounded_witness :
  ∃ extra,
    log (run [Caller; Caller; ToConn; ToConn]
             (Stream (mkRW [] EOF [] None) (mkRW [] (ReadError "reset"%string) [] None) []))
    = [] ++ extra ∧ (length extra ≤ 2)%nat.
Proof.
  destruct (Stream_log_bounded
              (mkRW [] EOF [] None) (mkRW [] (ReadError "reset"%string) [] None) []
              (run [Caller; Caller; ToConn; ToConn]
                 (Stream (mkRW [] EOF [] None) (mkRW [] (ReadError "reset"%string) [] None) []))
              (run_reachable _ _)) as (extra & Hlog & Hlen & _).
  exists extra. split; assumption.
Defined.

Lemma Stream_never_returns_witness :
  caller (run [Caller; Caller; ToConn; ToBackend; Caller; ToConn; ToBackend; Caller]
              (Stream (mkRW [[104]] (@Never unit) [] None) (mkRW [[105]] Never [] None) []))
  ≠ MRet.
Proof.
  apply (Stream_never_returns
           (mkRW [[104]] (@Never unit) [] None) (mkRW [[105]] Never [] None) []);
    try reflexivity.
  apply run_reachable.
Defined.

Lemma Stream_signalled_delivered_witness :
  written (backendConn
             (run [Caller; Caller; ToBackend; ToBackend; ToBackend; ToBackend; ToBackend]
                  (Stream (mkRW [[104]; [105]] (@EOF unit) [] None)
                          (mkRW [] Never [33] None) [])))
  = [33; 104; 105].
Proof.
  destruct (Stream_signalled_delivered
              (mkRW [[104]; [105]] (@EOF unit) [] None) (mkRW [] Never [33] None) []
              (run [Caller; Caller; ToBackend; ToBackend; ToBackend; ToBackend; ToBackend]
                   (Stream (mkRW [[104]; [105]] (@EOF unit) [] None)
                           (mkRW [] Never [33] None) []))
              (run_reachable _ _)) as [Hb _].
  destruct (Hb eq_refl eq_refl) as [_ Hw]. exact Hw.
Defined.



Lemma generateAcceptKey_first_value_witness :
  generateAcceptKey sample_req two_nonces_world
  = (Ok "s3pPLMBiTxaQ9kYGzzhZRbK+xOo="%string, two_nonces_world).
Proof.
  rewrite (generateAcceptKey_first_value sample_req two_nonces_world
             ["dGhlIHNhbXBsZSBub25jZQ=="%string; "x3JJHMbDL1EzLkh9GBhXDw=="%string] eq_refl).
  vm_compute. reflexivity.
Defined.

Lemma accept_key_agreement_witness :
  ∃ (σ3 σ4 : world nat) (l : loc),
    @ClientConnect toy sample_req None sample_world
    = (Ok (Some "wss://example.com/chat"%string, Some (Response.mk 101 (Some 3%positive)), None),
       σ3)
    ∧ NewResponseHeader sample_req σ3 = (Ok (Some l), σ4)
    ∧ l ≠ 3%positive
    ∧ http.Get (default ∅ (deref σ4 (Some l))) "Sec-Websocket-Accept"
      = http.Get (default ∅ (deref σ4 (Some 3%positive))) "Sec-WebSocket-Accept".
Proof.
  apply (@accept_key_agreement toy sample_req None sample_world
           (snd (@the_dial toy sample_req None sample_world
                   (url.mkURL "https" "" "example.com" "/chat" "" "")))
           (url.mkURL "https" "" "example.com" "/chat" "" "")
           (Some "wss://example.com/chat"%string)
           (Response.mk 101 (Some 3%positive)) 3%positive
           (<["Sec-Websocket-Accept"%string := ["from-the-backend"%string]]> ∅)).
  - reflexivity.
  - vm_compute. reflexivity.
  - reflexivity.
  - vm_compute. reflexivity.
  - discriminate.
Defined.
